(** * A shallow embedding of the tbc block-header store and block scheduler

    Sources embedded here:
    - [database/tbcd/database.go]      the record types of the store contract;
    - [database/tbcd/level/level.go]   the LevelDB backend ([ldb]);
    - [service/tbc/tbc.go]             the header handler and the pending-block
                                       cache of the service.

    Conventions.
    - A Go [[]byte] is a [list byte]; a [uint64] is an [N] below [2^64], and
      every conversion that truncates is written out.
    - A LevelDB namespace is a finite map from byte strings to byte strings;
      its iterator walks the keys in the order of [bytes.Compare].
    - A Go [panic] is an outcome of its own, distinct from a returned error.
    - The key-value engine itself is taken to work: opening a transaction,
      writing a batch and committing do not fail.  The errors that remain are
      the ones the backend produces itself. *)

From Stdlib Require Import NArith ZArith Lia.
From Stdlib Require Import Strings.Byte.
From stdpp Require Import gmap strings list sorting.

Local Open Scope N_scope.

(** ** Bytes *)

Abbreviation bytes := (list byte).

#[global] Instance byte_eq_dec : EqDecision byte.
Proof.
  intros x y. destruct (Byte.eqb x y) eqn:E.
  - left. by apply Byte.byte_dec_bl.
  - right. by apply Byte.eqb_false.
Defined.

#[global] Instance byte_countable : Countable byte :=
  inj_countable Byte.to_N Byte.of_N Byte.of_to_N.

(** Go's conversion [byte(x)] of an unsigned integer keeps the low 8 bits. *)
Definition byte_of_N (n : N) : byte :=
  default x00 (Byte.of_N (n mod 256)).

(** [uint64(b)] *)
Definition uint64_of_byte (b : byte) : N := Byte.to_N b.

Definition uint64_max : N := 2 ^ 64.

(** Wrap-around of [uint64] arithmetic. *)
Definition wrap64 (n : N) : N := n mod uint64_max.

(** [int64(x)] for [x : uint64]: two's complement reinterpretation. *)
Definition int64_of_uint64 (x : N) : Z :=
  let z := Z.of_N (wrap64 x) in
  if (z <? 2 ^ 63)%Z then z else (z - 2 ^ 64)%Z.

(** ** [encoding/binary]: big-endian 64-bit integers *)

Module BigEndian.

(** [binary.BigEndian.PutUint64(b, v)], as the eight bytes it stores. *)
Definition PutUint64 (v : N) : bytes :=
  [ byte_of_N (N.shiftr v 56); byte_of_N (N.shiftr v 48);
    byte_of_N (N.shiftr v 40); byte_of_N (N.shiftr v 32);
    byte_of_N (N.shiftr v 24); byte_of_N (N.shiftr v 16);
    byte_of_N (N.shiftr v 8);  byte_of_N v ].

(** [binary.BigEndian.Uint64(b)]; Go panics when [b] has fewer than eight
    bytes, bytes past the eighth are ignored. *)
Definition Uint64 (b : bytes) : option N :=
  match b with
  | b0 :: b1 :: b2 :: b3 :: b4 :: b5 :: b6 :: b7 :: _ =>
      Some (N.lor (N.lor (N.lor (N.lor (N.lor (N.lor (N.lor
              (uint64_of_byte b7)
              (N.shiftl (uint64_of_byte b6) 8))
              (N.shiftl (uint64_of_byte b5) 16))
              (N.shiftl (uint64_of_byte b4) 24))
              (N.shiftl (uint64_of_byte b3) 32))
              (N.shiftl (uint64_of_byte b2) 40))
              (N.shiftl (uint64_of_byte b1) 48))
              (N.shiftl (uint64_of_byte b0) 56))
  | _ => None
  end.

End BigEndian.

(** The value of a byte string read as a big-endian numeral. *)
Definition be_value (l : bytes) : N :=
  fold_left (fun acc b => acc * 256 + Byte.to_N b) l 0.

(** ** [bytes.Compare], the order of LevelDB keys *)

Fixpoint bytes_compare (a b : bytes) : comparison :=
  match a, b with
  | [], [] => Eq
  | [], _ :: _ => Lt
  | _ :: _, [] => Gt
  | x :: a', y :: b' =>
      match Byte.to_N x ?= Byte.to_N y with
      | Eq => bytes_compare a' b'
      | c => c
      end
  end.

Definition bytes_lt (a b : bytes) : Prop := bytes_compare a b = Lt.
Definition bytes_le (a b : bytes) : Prop := bytes_compare a b <> Gt.

#[global] Instance bytes_le_dec a b : Decision (bytes_le a b).
Proof. unfold bytes_le. apply _. Defined.

(** ** Results of fallible calls *)

(** The errors of the [database] package that callers tell apart; every
    other error is an opaque message. *)
Inductive error : Type :=
  | NotFoundError (msg : string)
  | DuplicateError (msg : string)
  | OtherError (msg : string).

Inductive result (A : Type) : Type :=
  | Ok (a : A)
  | Err (e : error)
  | Panic (msg : string).
Arguments Ok {A} a.
Arguments Err {A} e.
Arguments Panic {A} msg.

(** ** Keys of the BlocksMissing namespace (level.go) *)

(** [chainhash.HashSize] *)
Definition HashSize : nat := 32.

(** [copy(dst, src)] where [dst] is a fresh zeroed slice of [n] bytes. *)
Definition copy_into_zeroed (n : nat) (src : bytes) : bytes :=
  take n src ++ replicate (n - length src)%nat x00.

(** [heightHashToKey]: 8 bytes of big-endian height, one byte left at zero
    by [make], then the hash. *)
Definition heightHashToKey (height : N) (hash : bytes) : result bytes :=
  if decide (length hash ≠ HashSize) then Panic "invalid hash size"
  else Ok (BigEndian.PutUint64 height ++ [x00] ++ copy_into_zeroed HashSize hash).

(** [keyToHeightHash] *)
Definition keyToHeightHash (key : bytes) : result (N * bytes) :=
  if decide (length key ≠ (8 + 1 + HashSize)%nat) then Panic "invalid key size"
  else
    let hash := copy_into_zeroed HashSize (drop 9 key) in
    match BigEndian.Uint64 (take 8 key) with
    | Some h => Ok (h, hash)
    | None => Panic "index out of range"
    end.

(** An error monad for code that returns early on [err != nil] or panics. *)
#[global] Instance result_ret : MRet result := fun _ a => Ok a.
#[global] Instance result_bind : MBind result := fun _ _ f r =>
  match r with
  | Ok a => f a
  | Err e => Err e
  | Panic m => Panic m
  end.

(** ** Records of the store contract (database.go) *)

(** [database.Timestamp]: a reading of the wall clock. *)
Definition Timestamp : Type := Z.

Module BlockHeader.
Record t : Type := mk {
  Hash : bytes;
  Height : N;
  Header : bytes;
  CreatedAt : Timestamp
}.
Definition with_CreatedAt (ts : Timestamp) (bh : t) : t :=
  mk (Hash bh) (Height bh) (Header bh) ts.
End BlockHeader.

Module Block.
Record t : Type := mk {
  Hash : bytes;
  Block : bytes
}.
End Block.

Module BlockIdentifier.
Record t : Type := mk {
  Height : N;
  Hash : bytes
}.
End BlockIdentifier.

Module Peer.
Record t : Type := mk {
  Host : string;
  Port : string;
  LastAt : Timestamp;
  CreatedAt : Timestamp
}.
End Peer.

(** What [keyToHeightHash] reads off a key of the right size: the
    big-endian value of its first eight bytes and the bytes from index 9
    on. *)
Definition decode_key (key : bytes) : BlockIdentifier.t :=
  BlockIdentifier.mk (be_value (take 8 key)) (drop 9 key).

(** ** What the backend takes from outside *)

(** [encoding/json] on the record types.  Nothing is assumed of the codec
    here; a property that needs [Unmarshal] to undo [Marshal] says so. *)
Class JSON : Type := {
  marshalBlockHeader : BlockHeader.t -> option bytes;
  unmarshalBlockHeader : bytes -> option BlockHeader.t;
  marshalBlock : Block.t -> option bytes
}.

(** goleveldb.  [Delete] of a key that is not there either succeeds quietly
    or reports [leveldb.ErrNotFound]; the backend is written for both. *)
Class LevelDB : Type := {
  delete_reports_missing : bool
}.

Inductive leveldb_error : Type :=
  | ErrNotFound.

(** ** The LevelDB backend (level.go) *)

Abbreviation namespace := (gmap bytes bytes).

(** The pool of databases, [l.pool[level.BlockHeadersDB]] and so on. *)
Record ldb : Type := mk_ldb {
  BlockHeadersDB : namespace;
  BlocksMissingDB : namespace;
  BlocksDB : namespace
}.

(** A [leveldb.Batch] of [Put]s, oldest first. *)
Abbreviation Batch := (list (bytes * bytes)).

Definition Batch_Put (b : Batch) (key value : bytes) : Batch :=
  b ++ [(key, value)].

(** [tx.Write(batch)] replays the batch in order. *)
Definition tx_Write (b : Batch) (tx : namespace) : namespace :=
  foldl (fun m kv => <[kv.1 := kv.2]> m) tx b.

Definition tx_Delete `{LevelDB} (key : bytes) (tx : namespace)
  : namespace * option leveldb_error :=
  (delete key tx,
   if delete_reports_missing && bool_decide (tx !! key = None)
   then Some ErrNotFound else None).

Definition key_le (a b : bytes * bytes) : Prop := bytes_le a.1 b.1.

#[global] Instance key_le_dec a b : Decision (key_le a b).
Proof. unfold key_le. apply _. Defined.

(** [tx.NewIterator(nil, nil)]: all entries, in key order. *)
Definition NewIterator (tx : namespace) : list (bytes * bytes) :=
  merge_sort key_le (map_to_list tx).

(** [[]byte(bhsLastKey)], the bytes of "last" *)
Definition bhsLastKey : bytes := [x6c; x61; x73; x74].

(** Every key of the namespace has the size of a [heightHashToKey] key. *)
Definition missing_keys_sized (m : namespace) : Prop :=
  forall key, is_Some (m !! key) -> length key = 41%nat.

(** The key [be_u64(height) ‖ 0x00 ‖ hash] of a header's missing-block
    record, as a byte string. *)
Definition missing_key (bh : BlockHeader.t) : bytes :=
  BigEndian.PutUint64 (BlockHeader.Height bh) ++ x00 :: BlockHeader.Hash bh.

(** The entries of a batch of headers once each has had its [CreatedAt]
    set, entry [i] at clock reading [k + i]. *)
Fixpoint stamp (clock : nat -> Timestamp) (k : nat) (bhs : list BlockHeader.t)
  : list BlockHeader.t :=
  match bhs with
  | [] => []
  | bh :: rest => BlockHeader.with_CreatedAt (clock k) bh :: stamp clock (S k) rest
  end.

(** A header as the store and the wire know it. *)
Definition well_formed (bh : BlockHeader.t) : Prop :=
  length (BlockHeader.Hash bh) = HashSize /\ BlockHeader.Height bh < 2 ^ 64.

Section level.
Context `{JSON} `{LevelDB}.

Definition BlockHeaderByHash (l : ldb) (hash : bytes) : result BlockHeader.t :=
  match BlockHeadersDB l !! hash with
  | None => Err (NotFoundError "header not found")
  | Some j =>
      match unmarshalBlockHeader j with
      | None => Err (OtherError "block headers best unmarshal")
      | Some bh => Ok bh
      end
  end.

Definition BlockHeadersBest (l : ldb) : result (list BlockHeader.t) :=
  match BlockHeadersDB l !! bhsLastKey with
  | None => Ok []
  | Some j =>
      match unmarshalBlockHeader j with
      | None => Err (OtherError "block headers best unmarshal")
      | Some bh => Ok [bh]
      end
  end.

(** State of the loop of [BlockHeadersInsert] between two iterations. *)
Record insert_acc : Type := mk_acc {
  bmBatch : Batch;
  bhsBatch : Batch;
  lastRecord : bytes
}.

(** The loop [for k := range bhs] of [BlockHeadersInsert], from index [k]
    on.  [clock k] is what [time.Now()] reads in iteration [k].  The slice
    is updated in place, so the entries as the loop leaves them are
    returned as well, also when it stops early. *)
Fixpoint BlockHeadersInsert_loop (clock : nat -> Timestamp) (k : nat)
    (bhs : list BlockHeader.t) (acc : insert_acc)
  : list BlockHeader.t * result insert_acc :=
  match bhs with
  | [] => ([], Ok acc)
  | bh :: rest =>
      let bm :=
        if decide (BlockHeader.Height bh ≠ 0) then
          key ← heightHashToKey (BlockHeader.Height bh) (BlockHeader.Hash bh);
          mret (Batch_Put (bmBatch acc) key [])
        else mret (bmBatch acc) in
      match bm with
      | Ok bm' =>
          let bh' := BlockHeader.with_CreatedAt (clock k) bh in
          match marshalBlockHeader bh' with
          | None => (bh' :: rest, Err (OtherError "json marshal"))
          | Some bhj =>
              let acc' := mk_acc bm'
                            (Batch_Put (bhsBatch acc) (BlockHeader.Hash bh') bhj)
                            bhj in
              let '(rest', r) := BlockHeadersInsert_loop clock (S k) rest acc' in
              (bh' :: rest', r)
          end
      | Err e => (bh :: rest, Err e)
      | Panic m => (bh :: rest, Panic m)
      end
  end.

(** What the loop has put into its two batches once it is through: a
    missing-block record for each entry above height 0, and each entry's
    encoding under its hash. *)
Definition missing_puts (bhs : list BlockHeader.t) : Batch :=
  (fun bh => (missing_key bh, [])) <$>
    filter (fun bh => BlockHeader.Height bh ≠ 0) bhs.

Definition header_puts (bhs : list BlockHeader.t) : Batch :=
  omap (fun bh => j ← marshalBlockHeader bh; Some (BlockHeader.Hash bh, j)) bhs.

(** [BlockHeadersInsert]: the store after the call, the caller's slice
    after the call, and the returned error. *)
Definition BlockHeadersInsert (l : ldb) (clock : nat -> Timestamp)
    (bhs : list BlockHeader.t) : ldb * list BlockHeader.t * result unit :=
  match bhs with
  | [] => (l, bhs, Err (OtherError "block headers insert: no block headers to insert"))
  | first :: _ =>
      let bhsTx := BlockHeadersDB l in
      let bmTx := BlocksMissingDB l in
      if decide (is_Some (bhsTx !! BlockHeader.Hash first)) then
        (l, bhs, Err (DuplicateError "block headers insert duplicate"))
      else
        match BlockHeadersInsert_loop clock 0 bhs (mk_acc [] [] []) with
        | (bhs', Ok acc) =>
            let bhsBatch' := Batch_Put (bhsBatch acc) bhsLastKey (lastRecord acc) in
            let bmTx' := tx_Write (bmBatch acc) bmTx in
            let bhsTx' := tx_Write bhsBatch' bhsTx in
            (mk_ldb bhsTx' bmTx' (BlocksDB l), bhs', Ok tt)
        | (bhs', Err e) => (l, bhs', Err e)
        | (bhs', Panic m) => (l, bhs', Panic m)
        end
  end.

(** The loop [for it.Next()] of [BlocksMissing]. *)
Fixpoint BlocksMissing_loop (count x : Z) (it : list (bytes * bytes))
    (bis : list BlockIdentifier.t) : result (list BlockIdentifier.t) :=
  match it with
  | [] => Ok bis
  | (key, _) :: it' =>
      hh ← keyToHeightHash key;
      let bis := bis ++ [BlockIdentifier.mk hh.1 hh.2] in
      let x := (x + 1)%Z in
      if decide (x >= count)%Z then Ok bis
      else BlocksMissing_loop count x it' bis
  end.

(** [BlocksMissing]; [make] with a negative capacity panics. *)
Definition BlocksMissing (l : ldb) (count : Z) : result (list BlockIdentifier.t) :=
  if decide (count < 0)%Z then Panic "makeslice: cap out of range"
  else BlocksMissing_loop count 0 (NewIterator (BlocksMissingDB l)) [].

(** [BlockInsert]: the store after the call, the lines logged at error
    level, and the returned height or error. *)
Definition BlockInsert (l : ldb) (b : Block.t) : ldb * list string * result Z :=
  let bhsTx := BlockHeadersDB l in
  let bmTx := BlocksMissingDB l in
  let bTx := BlocksDB l in
  match bhsTx !! Block.Hash b with
  | None => (l, [], Err (NotFoundError "block header not found"))
  | Some bhj =>
      match unmarshalBlockHeader bhj with
      | None => (l, [], Err (OtherError "block insert unmarshal"))
      | Some bh =>
          match heightHashToKey (BlockHeader.Height bh) (BlockHeader.Hash bh) with
          | Panic m => (l, [], Panic m)
          | Err e => (l, [], Err e)
          | Ok key =>
              let '(bmTx', derr) := tx_Delete key bmTx in
              let logged :=
                match derr with
                | Some ErrNotFound => ["block insert delete from missing"]
                | None => []
                end in
              match marshalBlock b with
              | None => (l, logged, Err (OtherError "block insert marshal"))
              | Some bj =>
                  let bTx' := <[Block.Hash b := bj]> bTx in
                  (mk_ldb bhsTx bmTx' bTx', logged,
                   Ok (int64_of_uint64 (BlockHeader.Height bh)))
              end
          end
      end
  end.

Definition PeersInsert (l : ldb) (peers : list Peer.t) : ldb * result unit :=
  (l, Err (OtherError "PeersInsert")).

Definition PeerDelete (l : ldb) (host port : string) : ldb * result unit :=
  (l, Err (OtherError "PeerDelete")).

Definition PeersRandom (l : ldb) (count : Z) : result (list Peer.t) :=
  Ok [].

End level.

(** ** The service (tbc.go) *)

(** [defaultPendingBlocks] *)
Definition defaultPendingBlocks : nat := 128.

(** [time.Second], in the nanoseconds of [time.Duration] *)
Definition Second : Z := 1000000000.

(** The parts of btcd's [wire] and [chainhash] packages the handlers use:
    the block header type with its [PrevBlock] field, [BlockHash],
    [Serialize] and [Deserialize], and [chainhash.Hash.String]. *)
Class Wire : Type := {
  wire_BlockHeader : Type;
  PrevBlock : wire_BlockHeader -> bytes;
  BlockHash : wire_BlockHeader -> bytes;
  Serialize : wire_BlockHeader -> option bytes;
  Deserialize : bytes -> option wire_BlockHeader;
  Hash_String : bytes -> string
}.

Module blockPeer.
Record t : Type := mk {
  expire : Z;
  peer : string
}.
End blockPeer.

Module peer.
(** Modelled from the spec: the [peer] struct of the peer session is
    declared outside the surveyed files; the service only asks whether
    its connection is there ([conn != nil]) and addresses it by
    [address]. *)
Record t : Type := mk {
  address : string;
  conn : bool
}.
End peer.

(** The fields of [Server] the handlers below read and write. *)
Record Server : Type := mk_Server {
  peers : gmap string peer.t;
  blocks : gmap string blockPeer.t;
  db : ldb
}.

Definition set_blocks (f : gmap string blockPeer.t -> gmap string blockPeer.t)
    (s : Server) : Server :=
  mk_Server (peers s) (f (blocks s)) (db s).

Definition set_peers (f : gmap string peer.t -> gmap string peer.t)
    (s : Server) : Server :=
  mk_Server (f (peers s)) (blocks s) (db s).

Definition set_db (l : ldb) (s : Server) : Server :=
  mk_Server (peers s) (blocks s) l.

(** [NewServer], for the maps: both start empty. *)
Definition NewServer (l : ldb) : Server := mk_Server ∅ ∅ l.

Inductive sched_error : Type :=
  | errCacheFull
  | errNoPeers
  | errAlreadyCached
  | errExpiredPeer.

(** [blockPeerAdd]; [now] is the reading of [time.Now()]. *)
Definition blockPeerAdd (s : Server) (now : Z) (hash peer : string)
  : Server * option sched_error :=
  match peers s !! peer with
  | None => (s, Some errExpiredPeer)
  | Some _ =>
      match blocks s !! hash with
      | Some _ => (s, Some errAlreadyCached)
      | None =>
          (set_blocks (insert hash (blockPeer.mk (now + 37 * Second) peer)) s,
           None)
      end
  end.

(** [blockPeerExpire]: entries with [now.After(v.expire)] are deleted; the
    second component is the returned [len(s.blocks)].  Closing the slow
    peers' connections does not touch the maps. *)
Definition blockPeerExpire (s : Server) (now : Z) : Server * nat :=
  let s' := set_blocks
              (filter (fun kv => ¬ (blockPeer.expire kv.2 < now)%Z)) s in
  (s', size (blocks s')).

(** The loop [for k, v := range s.peers] of [randPeerWrite].  Go ranges
    over a map in an order of its choosing; [order] is that order. *)
Fixpoint randPeerWrite_range (s : Server) (now : Z) (hash : string)
    (order : list string) : Server * option string :=
  match order with
  | [] => (s, None)
  | k :: rest =>
      match peers s !! k with
      | None => randPeerWrite_range s now hash rest
      | Some v =>
          if negb (peer.conn v) then randPeerWrite_range s now hash rest
          else
            match blockPeerAdd s now hash k with
            | (s', Some _) => randPeerWrite_range s' now hash rest
            | (s', None) => (s', Some k)
            end
      end
  end.

(** What [randPeerWrite] comes to: one of its own errors, or the message
    written to the chosen peer (whose own write error is the network's). *)
Inductive rpw_result : Type :=
  | rpw_error (e : sched_error)
  | rpw_write (p : string).

Definition randPeerWrite (s : Server) (now : Z) (order : list string)
    (hash : string) : Server * rpw_result :=
  if decide (defaultPendingBlocks <= size (blocks s))%nat then
    (s, rpw_error errCacheFull)
  else
    match randPeerWrite_range s now hash order with
    | (s', None) => (s', rpw_error errNoPeers)
    | (s', Some p) => (s', rpw_write p)
    end.

Definition peerAdd (s : Server) (p : peer.t) : Server :=
  set_peers (insert (peer.address p) p) s.

Definition peerDelete (s : Server) (address : string) : Server :=
  set_peers (delete address) s.

(** What the scheduler does not decide itself: the clock readings and the
    order of each range over the peers, by call. *)
Record oracle : Type := mk_oracle {
  now : nat -> Z;
  range_peers : nat -> list string
}.

Definition oracle_shift (n : nat) (o : oracle) : oracle :=
  mk_oracle (fun i => now o (n + i)%nat) (fun i => range_peers o (n + i)%nat).

Section service.
Context `{JSON} `{LevelDB} `{Wire}.

(** [downloadBlocks]: a [break] inside the [switch] leaves the [switch]
    only, so every identifier of [bis] is tried. *)
Fixpoint downloadBlocks (s : Server) (o : oracle) (k : nat)
    (bis : list BlockIdentifier.t) : Server :=
  match bis with
  | [] => s
  | bi :: rest =>
      let hashS := Hash_String (BlockIdentifier.Hash bi) in
      let '(s', _) := randPeerWrite s (now o k) (range_peers o k) hashS in
      downloadBlocks s' o (S k) rest
  end.

(** [checkBlockCache]; reading 0 of the clock is the one of
    [blockPeerExpire]. *)
Definition checkBlockCache (s : Server) (o : oracle) : Server :=
  let '(s1, used) := blockPeerExpire s (now o 0%nat) in
  let want := (Z.of_nat defaultPendingBlocks - Z.of_nat used)%Z in
  if decide (want <= 0)%Z then s1
  else
    match BlocksMissing (db s1) want with
    | Ok bm =>
        let prunedBM :=
          filter (fun bi => blocks s1 !!
                     String.string_of_list_byte (BlockIdentifier.Hash bi) = None)
                 bm in
        downloadBlocks s1 (oracle_shift 1 o) 0 prunedBM
    | _ => s1
    end.

(** The cache part of [handleBlock]: the block's entry is deleted whatever
    [BlockInsert] returned, then the cache is checked. *)
Definition handleBlock_cache (s : Server) (o : oracle) (bhs : string) : Server :=
  checkBlockCache (set_blocks (delete bhs) s) o.

(** How the loop of [handleHeaders] over the message ends. *)
Inductive connect_result : Type :=
  | Connected (headers : list BlockHeader.t)
  | CannotConnect (prev : bytes) (height : N)
  | SerializePanic.

(** The loop [for k := range msg.Headers] of [handleHeaders]. *)
Fixpoint handleHeaders_range (pbh : wire_BlockHeader) (height : N)
    (msgs : list wire_BlockHeader) (headers : list BlockHeader.t)
  : connect_result :=
  match msgs with
  | [] => Connected headers
  | m :: rest =>
      if decide (PrevBlock m ≠ BlockHash pbh) then
        CannotConnect (PrevBlock m) height
      else
        match Serialize m with
        | None => SerializePanic
        | Some hb =>
            handleHeaders_range m (wrap64 (height + 1)) rest
              (headers ++ [BlockHeader.mk (BlockHash m) height hb 0%Z])
        end
  end.

(** The header that header [i] of a message has to connect to: the
    stored parent for the first, the header before it for the others. *)
Definition parent_of (pbh : wire_BlockHeader) (msg : list wire_BlockHeader)
    (i : nat) : option wire_BlockHeader :=
  match i with
  | O => Some pbh
  | S j => msg !! j
  end.

Definition connects (pbh : wire_BlockHeader) (msg : list wire_BlockHeader) : Prop :=
  forall i m p, msg !! i = Some m -> parent_of pbh msg i = Some p ->
                PrevBlock m = BlockHash p.

(** The insert list of a message whose headers connect, from [height]
    on. *)
Fixpoint headers_of (height : N) (msg : list wire_BlockHeader)
  : list BlockHeader.t :=
  match msg with
  | [] => []
  | m :: rest =>
      BlockHeader.mk (BlockHash m) height (default [] (Serialize m)) 0%Z
        :: headers_of (wrap64 (height + 1)) rest
  end.

(** Which way [handleHeaders] went. *)
Inductive headers_outcome : Type :=
  | EndOfIBD
  | NoPreviousBlockHeader
  | InvalidBlockHeader
  | NotConnected (prev : bytes) (height : N)
  | InsertFailed (e : error)
  | Inserted (headers : list BlockHeader.t)
  | Panicked.

(** [handleHeaders]: the server after the call and the branch taken.
    [Inserted hs] is the one branch that goes on to ask the peer for the
    next headers; [InsertFailed] closes the peer. *)
Definition handleHeaders (s : Server) (o : oracle)
    (msg : list wire_BlockHeader) : Server * headers_outcome :=
  match msg with
  | [] => (checkBlockCache s o, EndOfIBD)
  | first :: _ =>
      match BlockHeaderByHash (db s) (PrevBlock first) with
      | Ok dbpbh =>
          match Deserialize (BlockHeader.Header dbpbh) with
          | None => (s, InvalidBlockHeader)
          | Some pbh =>
              match handleHeaders_range pbh
                      (wrap64 (BlockHeader.Height dbpbh + 1)) msg [] with
              | CannotConnect prev height => (s, NotConnected prev height)
              | SerializePanic => (s, Panicked)
              | Connected headers =>
                  if decide (0 < length headers)%nat then
                    match BlockHeadersInsert (db s) (now o) headers with
                    | (l', headers', Ok _) => (set_db l' s, Inserted headers')
                    | (l', _, Err e) => (set_db l' s, InsertFailed e)
                    | (l', _, Panic _) => (set_db l' s, Panicked)
                    end
                  else (s, Inserted [])
              end
          end
      | _ => (s, NoPreviousBlockHeader)
      end
  end.

End service.

(** [blockPeerAdd] and [randPeerWrite] are written to be called with
    [s.mtx] held ("Lock must be held!").  The relation below has the moves
    of the callers that keep to that: [checkBlockCache] and what it calls,
    the sweep of [blockPeerExpire], the bookkeeping of [handleBlock], the
    peer map updates and the header and block handlers.  Each is one
    critical section, so they follow one another without overlap.
    [handleInv] is not among them: it calls [downloadBlocks] without the
    lock, and is treated on its own further down. *)
Inductive locked_step `{JSON} `{LevelDB} `{Wire} : Server -> Server -> Prop :=
  | step_randPeerWrite s now order hash :
      order ≡ₚ (map_to_list (peers s)).*1 ->
      locked_step s (randPeerWrite s now order hash).1
  | step_blockPeerExpire s now :
      locked_step s (blockPeerExpire s now).1
  | step_downloadBlocks s o bis :
      locked_step s (downloadBlocks s o 0 bis)
  | step_checkBlockCache s o :
      locked_step s (checkBlockCache s o)
  | step_handleHeaders s o msg :
      locked_step s (handleHeaders s o msg).1
  | step_BlockInsert s b :
      locked_step s (set_db (BlockInsert (db s) b).1.1 s)
  | step_handleBlock_delete s bhs :
      locked_step s (set_blocks (delete bhs) s)
  | step_handleBlock s o b bhs :
      locked_step s (handleBlock_cache (set_db (BlockInsert (db s) b).1.1 s) o bhs)
  | step_peerAdd s p :
      locked_step s (peerAdd s p)
  | step_peerDelete s address :
      locked_step s (peerDelete s address).

(** The states that the moves made under the lock lead to from
    [NewServer]. *)
Inductive locked_reachable `{JSON} `{LevelDB} `{Wire} : Server -> Prop :=
  | locked_reachable_NewServer l : locked_reachable (NewServer l)
  | locked_reachable_step s s' :
      locked_reachable s -> locked_step s s' -> locked_reachable s'.

(** ** Inventories and the genesis block (tbc.go) *)

(** [wire.InvType], for the values [handleInv] tells apart. *)
Inductive InvType : Type :=
  | InvTypeTx
  | InvTypeBlock
  | InvTypeOther (code : N).

Module InvVect.
Record t : Type := mk {
  Type_ : InvType;
  Hash : bytes
}.
End InvVect.

(** The loop [for k := range msg.InvList] of [handleInv]: block entries
    become identifiers without a height. *)
Fixpoint handleInv_range (invs : list InvVect.t) (bis : list BlockIdentifier.t)
  : list BlockIdentifier.t :=
  match invs with
  | [] => bis
  | iv :: rest =>
      match InvVect.Type_ iv with
      | InvTypeBlock =>
          handleInv_range rest (bis ++ [BlockIdentifier.mk 0 (InvVect.Hash iv)])
      | InvTypeTx => handleInv_range rest bis
      | InvTypeOther _ => handleInv_range rest bis
      end
  end.

(** The package variable [genesisBlockHeader] and the latch
    [s.insertedGenesis]. *)
Record genesis : Type := mk_genesis {
  insertedGenesis : bool;
  genesisBlockHeader : option BlockHeader.t
}.

Section genesis_block.
Context `{JSON} `{LevelDB} `{Wire}.

(** [handleInv] *)
Definition handleInv (s : Server) (o : oracle) (invs : list InvVect.t) : Server :=
  let bis := handleInv_range invs [] in
  if decide (0 < length bis)%nat then downloadBlocks s o 0 bis else s.

(** What [insertGenesis] reads of [s.chainParams]: the genesis hash, the
    header of the genesis block and the bytes of the genesis block as
    [btcutil.NewBlock(...).Bytes()] gives them. *)
Record chainParams : Type := mk_chainParams {
  GenesisHash : bytes;
  GenesisBlock_Header : wire_BlockHeader;
  GenesisBlock_Bytes : option bytes
}.

(** [insertGenesis]: the store and the latch after the call, and the
    returned error.  The errors of the two inserts are wrapped with [%v],
    so their kind is lost. *)
Definition insertGenesis (l : ldb) (g : genesis) (clock : nat -> Timestamp)
    (cp : chainParams) : ldb * genesis * result unit :=
  if insertedGenesis g then (l, g, Ok tt)
  else
    let g1 := mk_genesis true (genesisBlockHeader g) in
    match Serialize (GenesisBlock_Header cp) with
    | None => (l, g1, Err (OtherError "serialize genesis block header"))
    | Some gbh =>
        let gh := BlockHeader.mk (GenesisHash cp) 0 gbh 0%Z in
        let g2 := mk_genesis true (Some gh) in
        match BlockHeadersInsert l clock [gh] with
        | (l1, _, Ok _) =>
            match GenesisBlock_Bytes cp with
            | None => (l1, g2, Err (OtherError "genesis block encode"))
            | Some gb =>
                match BlockInsert l1 (Block.mk (GenesisHash cp) gb) with
                | (l2, _, Ok _) => (l2, g2, Ok tt)
                | (l2, _, Err _) => (l2, g2, Err (OtherError "genesis block insert"))
                | (l2, _, Panic m) => (l2, g2, Panic m)
                end
            end
        | (l1, _, Err _) => (l1, g2, Err (OtherError "genesis block header insert"))
        | (l1, _, Panic m) => (l1, g2, Panic m)
        end
    end.

(** [(s *Server) blockHeadersBest] *)
Definition blockHeadersBest (l : ldb) (g : genesis) (clock : nat -> Timestamp)
    (cp : chainParams) : ldb * genesis * result (list BlockHeader.t) :=
  match BlockHeadersBest l with
  | Ok bhs =>
      let after_genesis : ldb * genesis * result (list BlockHeader.t) :=
        if decide (length bhs = 0%nat) then
          match insertGenesis l g clock cp with
          | (l', g', Ok _) =>
              match genesisBlockHeader g' with
              | Some gh => (l', g', Ok (bhs ++ [gh]))
              | None => (l', g', Panic "nil pointer dereference")
              end
          | (l', g', Err _) => (l', g', Err (OtherError "insert genesis"))
          | (l', g', Panic m) => (l', g', Panic m)
          end
        else (l, g, Ok bhs) in
      match after_genesis with
      | (l', g', Ok bhs') =>
          if decide (length bhs' ≠ 1%nat)
          then (l', g', Err (OtherError "unhandled best tip count"))
          else (l', g', Ok bhs')
      | r => r
      end
  | Err _ => (l, g, Err (OtherError "block headers best"))
  | Panic m => (l, g, Panic m)
  end.

End genesis_block.

(** ** [handleInv] beside itself (tbc.go)

    The read loop of every peer starts [go s.handleInv(...)] for each
    [inv] message, and [handleInv] calls [downloadBlocks] without taking
    [s.mtx]; the [Lock] and [Unlock] inside [randPeerWrite] are commented
    out.  So the goroutines of [handleInv] run beside one another, and
    what one of them does between its test of [len(s.blocks)] and its
    insert is not protected from the others. *)

(** [randPeerWrite] in the two moves it makes on the shared maps: the test
    [len(s.blocks) >= defaultPendingBlocks], and the loop over the peers
    with what it returns. *)
Definition randPeerWrite_cacheFull (s : Server) : bool :=
  bool_decide (defaultPendingBlocks <= size (blocks s))%nat.

Definition randPeerWrite_loop (s : Server) (now : Z) (order : list string)
    (hash : string) : Server * rpw_result :=
  match randPeerWrite_range s now hash order with
  | (s', None) => (s', rpw_error errNoPeers)
  | (s', Some p) => (s', rpw_write p)
  end.

(** Modelled from the spec: [connect] of the peer session is declared
    outside the surveyed files; a session that has dialled holds a
    connection.  The map holds pointers, so the peer in the map is the one
    that connects. *)
Definition peerConnected (s : Server) (address : string) : Server :=
  set_peers (alter (fun p => peer.mk (peer.address p) true) address) s.

(** A goroutine of [handleInv] inside [downloadBlocks]: the identifiers it
    has still to go through, and whether [randPeerWrite] for the first of
    them has found the cache not full and stands before its loop. *)
Record inv_goroutine : Type := mk_inv_goroutine {
  todo : list BlockIdentifier.t;
  tested : bool
}.

(** The service with the goroutines of [handleInv] that are under way. *)
Record running : Type := mk_running {
  srv : Server;
  goroutines : list inv_goroutine
}.

Section unlocked.
Context `{Wire}.

(** One move of such a goroutine on the server as it finds it: the test,
    which sends it to the next identifier when the cache is full, or the
    loop.  [None] when it has returned. *)
Definition inv_goroutine_step (s : Server) (now : Z) (order : list string)
    (g : inv_goroutine) : option (Server * inv_goroutine) :=
  match todo g with
  | [] => None
  | bi :: rest =>
      if tested g then
        Some ((randPeerWrite_loop s now order
                 (Hash_String (BlockIdentifier.Hash bi))).1,
              mk_inv_goroutine rest false)
      else if randPeerWrite_cacheFull s then Some (s, mk_inv_goroutine rest false)
      else Some (s, mk_inv_goroutine (bi :: rest) true)
  end.

(** A goroutine that is left alone until it returns; [k] counts the
    identifiers it has dealt with, as [downloadBlocks] does. *)
Fixpoint inv_goroutine_alone (s : Server) (o : oracle) (k : nat) (fuel : nat)
    (g : inv_goroutine) : Server * inv_goroutine :=
  match fuel with
  | O => (s, g)
  | S fuel' =>
      match inv_goroutine_step s (now o k) (range_peers o k) g with
      | None => (s, g)
      | Some (s', g') =>
          inv_goroutine_alone s' o
            (if tested g' then k else S k) fuel' g'
      end
  end.

(** Moves that the code makes, at the grain at which the goroutines of
    [handleInv] interleave: the peer manager adds a peer that has no
    connection yet, a peer connects, an [inv] message with block entries
    starts a goroutine, and a goroutine makes one move.  Not every move of
    the service is listed; every move listed is one of the service. *)
Inductive inv_step : running -> running -> Prop :=
  | inv_step_peerAdd c p :
      peer.conn p = false ->
      inv_step c (mk_running (peerAdd (srv c) p) (goroutines c))
  | inv_step_peerConnected c address :
      inv_step c (mk_running (peerConnected (srv c) address) (goroutines c))
  | inv_step_handleInv c invs :
      (0 < length (handleInv_range invs []))%nat ->
      inv_step c (mk_running (srv c)
                    (goroutines c
                       ++ [mk_inv_goroutine (handleInv_range invs []) false]))
  | inv_step_goroutine c i g now order s' g' :
      goroutines c !! i = Some g ->
      order ≡ₚ (map_to_list (peers (srv c))).*1 ->
      inv_goroutine_step (srv c) now order g = Some (s', g') ->
      inv_step c (mk_running s' (<[i := g']> (goroutines c))).

Inductive inv_reachable : running -> Prop :=
  | inv_reachable_NewServer l : inv_reachable (mk_running (NewServer l) [])
  | inv_reachable_step c c' : inv_reachable c -> inv_step c c' -> inv_reachable c'.

End unlocked.

(** ** Sample data: a small codec and a small wire format

    Instances of the outside world at which the statements below are run. *)

Module Sample.

Definition marshal_header (bh : BlockHeader.t) : option bytes :=
  if decide (length (BlockHeader.Hash bh) = HashSize) then
    Some (BlockHeader.Hash bh
            ++ BigEndian.PutUint64 (BlockHeader.Height bh)
            ++ BigEndian.PutUint64 (Z.to_N (BlockHeader.CreatedAt bh))
            ++ BlockHeader.Header bh)
  else None.

Definition unmarshal_header (j : bytes) : option BlockHeader.t :=
  if decide (length j < 48)%nat then None
  else
    height ← BigEndian.Uint64 (take 8 (drop 32 j));
    created ← BigEndian.Uint64 (take 8 (drop 40 j));
    Some (BlockHeader.mk (take 32 j) height (drop 48 j) (Z.of_N created)).

Definition marshal_block (b : Block.t) : option bytes :=
  Some (Block.Hash b ++ Block.Block b).

#[local] Instance json : JSON :=
  Build_JSON marshal_header unmarshal_header marshal_block.

#[local] Instance quiet_delete : LevelDB := Build_LevelDB false.
Definition loud_delete : LevelDB := Build_LevelDB true.

(** A header on the wire: the previous hash and the header's own hash. *)
#[local] Instance wire : Wire :=
  Build_Wire (bytes * bytes) fst snd
    (fun w => Some (w.1 ++ w.2))
    (fun b => Some (take 32 b, drop 32 b))
    String.string_of_list_byte.

(** 32 bytes, all equal to [b] *)
Definition hash_of (b : byte) : bytes := replicate 32 b.

Definition clock (k : nat) : Timestamp := (1700000000 + Z.of_nat k)%Z.

Definition header (b : byte) (height : N) : BlockHeader.t :=
  BlockHeader.mk (hash_of b) height [b; b] 0%Z.

Definition empty_ldb : ldb := mk_ldb ∅ ∅ ∅.

(** genesis, then two headers on top of it *)
Definition genesis_batch : list BlockHeader.t := [header x00 0].
Definition batch12 : list BlockHeader.t := [header x01 1; header x02 2].

Definition ldb0 : ldb := (BlockHeadersInsert empty_ldb clock genesis_batch).1.1.
Definition ldb2 : ldb := (BlockHeadersInsert ldb0 clock batch12).1.1.

Definition block1 : Block.t := Block.mk (hash_of x01) [xaa; xbb].
Definition block9 : Block.t := Block.mk (hash_of x09) [xcc].

(** Headers on the wire: 1 and 2 connect to genesis, 3 does not
    connect to 1. *)
Definition wire1 : wire_BlockHeader := (hash_of x00, hash_of x01).
Definition wire2 : wire_BlockHeader := (hash_of x01, hash_of x02).
Definition wire3 : wire_BlockHeader := (hash_of x07, hash_of x03).

(** The store with a genesis record whose raw header can be read back
    by [wire]. *)
Definition genesis_wire : BlockHeader.t :=
  BlockHeader.mk (hash_of x00) 0 (hash_of xff ++ hash_of x00) 0%Z.
Definition ldbw : ldb := (BlockHeadersInsert empty_ldb clock [genesis_wire]).1.1.

Definition oracle0 : oracle := mk_oracle clock (fun _ => []).

Definition peer1 : Peer.t := Peer.mk "192.0.2.1" "8333" 0%Z 0%Z.

(** A server with one connected and one unconnected peer. *)
Definition server2 : Server :=
  peerAdd (peerAdd (NewServer ldb2) (peer.mk "a:8333" true)) (peer.mk "b:8333" false).

Definition params : chainParams :=
  mk_chainParams (hash_of x00) (hash_of xff, hash_of x00) (Some [x01; x02; x03]).

Definition fresh : genesis := mk_genesis false None.

(** The genesis header as [wire] reads it back, and a header that claims
    to follow genesis under the hash genesis already has. *)
Definition wire_genesis : wire_BlockHeader := (hash_of xff, hash_of x00).
Definition wire_again : wire_BlockHeader := (hash_of x00, hash_of x00).

(** Block hashes by number, and [inv] messages made of them. *)
Definition nth_hash (i : nat) : bytes := hash_of (byte_of_N (N.of_nat i)).

Definition inv_blocks (from n : nat) : list InvVect.t :=
  (fun i => InvVect.mk InvTypeBlock (nth_hash i)) <$> seq from n.

Definition range_a : list string := ["a:8333"].
Definition oracle_a : oracle := mk_oracle clock (fun _ => range_a).

(** A server with one connected peer and nothing pending. *)
Definition server_a : Server :=
  peerConnected (peerAdd (NewServer empty_ldb) (peer.mk "a:8333" false)) "a:8333".

(** 127 requests pending, after one [inv] message of 127 blocks. *)
Definition server_127 : Server :=
  downloadBlocks server_a oracle_a 0 (handleInv_range (inv_blocks 0 127) []).

Definition returned : inv_goroutine := mk_inv_goroutine [] false.

(** Two more [inv] messages of one block each; the goroutine of each has
    made its test before the other has inserted. *)
Definition server_128 : Server :=
  (randPeerWrite_loop server_127 0 range_a
     (Hash_String (nth_hash 127))).1.
Definition server_129 : Server :=
  (randPeerWrite_loop server_128 0 range_a
     (Hash_String (nth_hash 128))).1.

Definition race_end : running :=
  mk_running server_129 [returned; returned; returned].

End Sample.

(** * Properties *)

(** ** Bytes and big-endian numerals *)

Lemma to_N_lt_256 (b : byte) : Byte.to_N b < 256.
Proof. pose proof (Byte.to_N_bounded b). lia. Qed.

Lemma to_N_byte_of_N (n : N) : Byte.to_N (byte_of_N n) = n mod 256.
Proof.
  unfold byte_of_N. destruct (Byte.of_N (n mod 256)) as [b|] eqn:E; simpl.
  - by apply Byte.to_of_N.
  - apply Byte.of_N_None_iff in E.
    pose proof (N.mod_upper_bound n 256). lia.
Qed.

Lemma lor_shiftl_add (x b k : N) :
  x < 2 ^ k -> N.lor x (N.shiftl b k) = x + b * 2 ^ k.
Proof.
  intros Hx. rewrite N.shiftl_mul_pow2.
  assert (Hland : N.land x (b * 2 ^ k) = 0).
  { apply N.bits_inj_iff. intros n. rewrite N.land_spec, N.bits_0.
    destruct (decide (n < k)) as [Hn|Hn].
    - rewrite N.mul_pow2_bits_low by done. apply andb_false_r.
    - replace (N.testbit x n) with false; [done|].
      symmetry. destruct (decide (x = 0)) as [->|Hx0]; [apply N.bits_0|].
      apply N.bits_above_log2.
      assert (N.log2 x < k) by (apply N.log2_lt_pow2; lia). lia. }
  rewrite <- N.lxor_lor by done. symmetry. by apply N.add_nocarry_lxor.
Qed.

Lemma fold_be_acc (l : bytes) (acc : N) :
  fold_left (fun a b => a * 256 + Byte.to_N b) l acc
  = acc * 256 ^ N.of_nat (length l) + be_value l.
Proof.
  unfold be_value. revert acc. induction l as [|b l IH]; intros acc; simpl.
  - lia.
  - rewrite IH, (IH (0 * 256 + Byte.to_N b)).
    replace (N.of_nat (S (length l))) with (N.succ (N.of_nat (length l))) by lia.
    rewrite N.pow_succ_r'. lia.
Qed.

Lemma be_value_cons (b : byte) (l : bytes) :
  be_value (b :: l) = Byte.to_N b * 256 ^ N.of_nat (length l) + be_value l.
Proof. unfold be_value at 1. simpl. by rewrite fold_be_acc. Qed.

Lemma be_value_bound (l : bytes) : be_value l < 256 ^ N.of_nat (length l).
Proof.
  induction l as [|b l IH].
  - unfold be_value. simpl. lia.
  - rewrite be_value_cons.
    replace (N.of_nat (length (b :: l))) with (N.succ (N.of_nat (length l)))
      by (simpl; lia).
    rewrite N.pow_succ_r'. pose proof (to_N_lt_256 b). nia.
Qed.

(** The powers of two at the byte boundaries of a 64-bit word, as
    numerals that [lia] reads. *)
Ltac pow2_numerals :=
  change (2 ^ 8) with 256; change (2 ^ 16) with 65536;
  change (2 ^ 24) with 16777216; change (2 ^ 32) with 4294967296;
  change (2 ^ 40) with 1099511627776; change (2 ^ 48) with 281474976710656;
  change (2 ^ 56) with 72057594037927936.

Lemma Uint64_be_value (l : bytes) :
  length l = 8%nat -> BigEndian.Uint64 l = Some (be_value l).
Proof.
  intros Hl.
  destruct l as [|b0 [|b1 [|b2 [|b3 [|b4 [|b5 [|b6 [|b7 [|? ?]]]]]]]]];
    try discriminate Hl.
  unfold BigEndian.Uint64, uint64_of_byte, be_value. simpl. f_equal.
  pose proof (to_N_lt_256 b0). pose proof (to_N_lt_256 b1).
  pose proof (to_N_lt_256 b2). pose proof (to_N_lt_256 b3).
  pose proof (to_N_lt_256 b4). pose proof (to_N_lt_256 b5).
  pose proof (to_N_lt_256 b6). pose proof (to_N_lt_256 b7).
  rewrite (lor_shiftl_add _ _ 8) by (pow2_numerals; lia).
  rewrite (lor_shiftl_add _ _ 16) by (pow2_numerals; lia).
  rewrite (lor_shiftl_add _ _ 24) by (pow2_numerals; lia).
  rewrite (lor_shiftl_add _ _ 32) by (pow2_numerals; lia).
  rewrite (lor_shiftl_add _ _ 40) by (pow2_numerals; lia).
  rewrite (lor_shiftl_add _ _ 48) by (pow2_numerals; lia).
  rewrite (lor_shiftl_add _ _ 56) by (pow2_numerals; lia).
  pow2_numerals. lia.
Qed.

Lemma mod_pow2_split (v k : N) :
  v mod 2 ^ (k + 8) = v mod 2 ^ k + 2 ^ k * ((v / 2 ^ k) mod 256).
Proof.
  rewrite N.pow_add_r. change (2 ^ 8) with 256.
  apply N.Div0.mod_mul_r.
Qed.

Lemma be_value_PutUint64 (v : N) :
  be_value (BigEndian.PutUint64 v) = v mod 2 ^ 64.
Proof.
  unfold BigEndian.PutUint64, be_value. cbn [fold_left].
  rewrite !to_N_byte_of_N, !N.shiftr_div_pow2.
  change 64 with (56 + 8). rewrite (mod_pow2_split v 56).
  change 56 with (48 + 8) at 2. rewrite (mod_pow2_split v 48).
  change 48 with (40 + 8) at 2. rewrite (mod_pow2_split v 40).
  change 40 with (32 + 8) at 2. rewrite (mod_pow2_split v 32).
  change 32 with (24 + 8) at 2. rewrite (mod_pow2_split v 24).
  change 24 with (16 + 8) at 2. rewrite (mod_pow2_split v 16).
  change 16 with (8 + 8) at 2. rewrite (mod_pow2_split v 8).
  generalize ((v / 2 ^ 56) mod 256) ((v / 2 ^ 48) mod 256)
    ((v / 2 ^ 40) mod 256) ((v / 2 ^ 32) mod 256) ((v / 2 ^ 24) mod 256)
    ((v / 2 ^ 16) mod 256) ((v / 2 ^ 8) mod 256).
  intros a7 a6 a5 a4 a3 a2 a1.
  pow2_numerals. generalize (v mod 256). intros a0. lia.
Qed.

Lemma Uint64_PutUint64 (v : N) :
  v < 2 ^ 64 -> BigEndian.Uint64 (BigEndian.PutUint64 v) = Some v.
Proof.
  intros Hv. rewrite Uint64_be_value by done.
  by rewrite be_value_PutUint64, N.mod_small.
Qed.

(** ** The order of keys *)

Lemma bytes_compare_antisym (a b : bytes) :
  bytes_compare b a = CompOpp (bytes_compare a b).
Proof.
  revert b. induction a as [|x a IH]; intros [|y b]; simpl; try done.
  rewrite (N.compare_antisym (Byte.to_N x) (Byte.to_N y)).
  destruct (Byte.to_N x ?= Byte.to_N y); simpl; auto.
Qed.

Lemma bytes_compare_eq (a b : bytes) : bytes_compare a b = Eq -> a = b.
Proof.
  revert b. induction a as [|x a IH]; intros [|y b]; simpl; try done.
  destruct (Byte.to_N x ?= Byte.to_N y) eqn:E; try done.
  intros Hab. apply N.compare_eq in E.
  f_equal; [|by apply IH].
  apply (inj Some). by rewrite <- (Byte.of_to_N x), <- (Byte.of_to_N y), E.
Qed.

Lemma bytes_compare_lt_trans (a b c : bytes) :
  bytes_compare a b = Lt -> bytes_compare b c = Lt -> bytes_compare a c = Lt.
Proof.
  revert b c. induction a as [|x a IH]; intros [|y b] [|z c]; simpl; try done.
  destruct (Byte.to_N x ?= Byte.to_N y) eqn:Exy; try done;
    destruct (Byte.to_N y ?= Byte.to_N z) eqn:Eyz; try done; intros Hab Hbc.
  - apply N.compare_eq in Exy, Eyz. rewrite Exy, Eyz, N.compare_refl. eauto.
  - apply N.compare_eq in Exy. by rewrite Exy, Eyz.
  - apply N.compare_eq in Eyz. by rewrite <- Eyz, Exy.
  - rewrite N.compare_lt_iff in Exy, Eyz.
    assert (Byte.to_N x < Byte.to_N z) as Hxz by lia.
    apply N.compare_lt_iff in Hxz. by rewrite Hxz.
Qed.

#[global] Instance bytes_le_total : Total bytes_le.
Proof.
  intros a b. unfold bytes_le. rewrite (bytes_compare_antisym a b).
  destruct (bytes_compare a b); simpl; auto.
Qed.

#[global] Instance bytes_le_trans : Transitive bytes_le.
Proof.
  intros a b c. unfold bytes_le. intros Hab Hbc.
  destruct (bytes_compare a b) eqn:Eab; [| |done].
  - apply bytes_compare_eq in Eab. by subst.
  - destruct (bytes_compare b c) eqn:Ebc; [| |done].
    + apply bytes_compare_eq in Ebc. subst. by rewrite Eab.
    + by rewrite (bytes_compare_lt_trans a b c).
Qed.

#[global] Instance key_le_total : Total key_le.
Proof. intros a b. apply bytes_le_total. Qed.

#[global] Instance key_le_trans : Transitive key_le.
Proof. intros a b c. apply bytes_le_trans. Qed.

(** On byte strings of one length, [bytes.Compare] is the comparison of
    the big-endian values. *)
Lemma bytes_compare_be_value (a b : bytes) :
  length a = length b -> bytes_compare a b = (be_value a ?= be_value b).
Proof.
  revert b. induction a as [|x a IH]; intros [|y b] Hl; try done.
  simpl in Hl. injection Hl as Hl.
  simpl. rewrite !be_value_cons, <- Hl.
  pose proof (be_value_bound a) as Ha. pose proof (be_value_bound b) as Hb.
  rewrite <- Hl in Hb. set (p := 256 ^ N.of_nat (length a)) in *.
  destruct (Byte.to_N x ?= Byte.to_N y) eqn:E.
  - apply N.compare_eq in E. rewrite E, (IH b Hl).
    destruct (be_value a ?= be_value b) eqn:E2; symmetry.
    + apply N.compare_eq in E2. apply N.compare_eq_iff. lia.
    + rewrite N.compare_lt_iff in E2. apply N.compare_lt_iff. lia.
    + rewrite N.compare_gt_iff in E2. apply N.compare_gt_iff. lia.
  - rewrite N.compare_lt_iff in E. symmetry. apply N.compare_lt_iff. nia.
  - rewrite N.compare_gt_iff in E. symmetry. apply N.compare_gt_iff. nia.
Qed.

Lemma bytes_compare_app_lt (a b r1 r2 : bytes) :
  length a = length b -> bytes_compare a b = Lt ->
  bytes_compare (a ++ r1) (b ++ r2) = Lt.
Proof.
  revert b. induction a as [|x a IH]; intros [|y b] Hl; try done.
  simpl in *. injection Hl as Hl.
  destruct (Byte.to_N x ?= Byte.to_N y); auto.
Qed.

Lemma bytes_le_take (n : nat) (a b : bytes) :
  bytes_le a b -> bytes_le (take n a) (take n b).
Proof.
  unfold bytes_le. revert a b.
  induction n as [|n IH]; intros [|x a] [|y b]; simpl; try done.
  destruct (Byte.to_N x ?= Byte.to_N y); auto.
Qed.


(** ** Keys of the BlocksMissing namespace *)

Lemma copy_into_zeroed_exact (n : nat) (src : bytes) :
  length src = n -> copy_into_zeroed n src = src.
Proof.
  intros <-. unfold copy_into_zeroed.
  rewrite firstn_all, Nat.sub_diag. simpl. apply app_nil_r.
Qed.

Lemma heightHashToKey_Ok (height : N) (hash : bytes) :
  length hash = HashSize ->
  heightHashToKey height hash = Ok (BigEndian.PutUint64 height ++ x00 :: hash).
Proof.
  intros Hl. unfold heightHashToKey.
  destruct (decide (length hash ≠ HashSize)); [done|].
  by rewrite copy_into_zeroed_exact.
Qed.

Lemma heightHashToKey_length (height : N) (hash key : bytes) :
  heightHashToKey height hash = Ok key -> length key = 41%nat.
Proof.
  unfold heightHashToKey. destruct (decide (length hash ≠ HashSize)) as [|Hl]; [done|].
  intros [= <-]. apply dec_stable in Hl.
  rewrite copy_into_zeroed_exact by done. simpl. rewrite Hl. done.
Qed.

Lemma keyToHeightHash_Ok (key : bytes) :
  length key = 41%nat ->
  keyToHeightHash key
  = Ok (BlockIdentifier.Height (decode_key key), BlockIdentifier.Hash (decode_key key)).
Proof.
  intros Hl. unfold keyToHeightHash.
  destruct (decide (length key ≠ (8 + 1 + HashSize)%nat)) as [Hn|_]; [done|].
  rewrite Uint64_be_value by (rewrite length_take; lia).
  rewrite copy_into_zeroed_exact by (rewrite length_drop, Hl; done).
  done.
Qed.

(** C10. For every height [h] of type uint64 and every 32-byte hash [b],
    [heightHashToKey] produces a key of exactly 41 bytes whose byte at
    index 8 is 0x00, and [keyToHeightHash] maps that key back to exactly
    [(h, b)]. *)
Theorem keyToHeightHash_heightHashToKey (h : N) (b : bytes) :
  h < 2 ^ 64 ->
  length b = HashSize ->
  exists key,
    heightHashToKey h b = Ok key /\
    keyToHeightHash key = Ok (h, b) /\
    length key = 41%nat /\
    key !! 8%nat = Some x00.
Proof.
  intros Hh Hb. exists (BigEndian.PutUint64 h ++ x00 :: b).
  split; [by apply heightHashToKey_Ok|].
  assert (length (BigEndian.PutUint64 h ++ x00 :: b) = 41%nat) as Hlen
    by (simpl; by rewrite Hb).
  split; [|split; [done|done]].
  rewrite keyToHeightHash_Ok by done. unfold decode_key.
  cbn [BlockIdentifier.Height BlockIdentifier.Hash].
  change (take 8 (BigEndian.PutUint64 h ++ x00 :: b)) with (BigEndian.PutUint64 h).
  change (drop 9 (BigEndian.PutUint64 h ++ x00 :: b)) with b.
  by rewrite be_value_PutUint64, N.mod_small.
Qed.

Lemma keyToHeightHash_heightHashToKey_witness :
  exists key,
    heightHashToKey 1000 (Sample.hash_of x2a) = Ok key /\
    keyToHeightHash key = Ok (1000, Sample.hash_of x2a) /\
    length key = 41%nat /\
    key !! 8%nat = Some x00.
Proof.
  apply (keyToHeightHash_heightHashToKey 1000 (Sample.hash_of x2a)).
  - reflexivity.
  - reflexivity.
Defined.

(** [heightHashToKey] is strictly monotone in the height. *)
Lemma heightHashToKey_lt (h1 h2 : N) (b1 b2 k1 k2 : bytes) :
  h1 < h2 -> h2 < 2 ^ 64 ->
  heightHashToKey h1 b1 = Ok k1 ->
  heightHashToKey h2 b2 = Ok k2 ->
  bytes_lt k1 k2.
Proof.
  unfold heightHashToKey. intros Hlt Hh2.
  destruct (decide (length b1 ≠ HashSize)); [done|].
  destruct (decide (length b2 ≠ HashSize)); [done|].
  intros [= <-] [= <-]. unfold bytes_lt.
  apply (bytes_compare_app_lt (BigEndian.PutUint64 h1) (BigEndian.PutUint64 h2));
    [done|].
  rewrite bytes_compare_be_value by done.
  rewrite !be_value_PutUint64, !N.mod_small by lia.
  by apply N.compare_lt_iff.
Qed.

(** ** [BlocksMissing] *)

Lemma NewIterator_elem_of (m : namespace) (kv : bytes * bytes) :
  kv ∈ NewIterator m <-> m !! kv.1 = Some kv.2.
Proof.
  unfold NewIterator. rewrite merge_sort_Permutation.
  apply elem_of_map_to_list'.
Qed.

Lemma NewIterator_sorted (m : namespace) : StronglySorted key_le (NewIterator m).
Proof. apply StronglySorted_merge_sort; apply _. Qed.

Lemma NewIterator_sized (m : namespace) :
  missing_keys_sized m ->
  Forall (fun kv => length kv.1 = 41%nat) (NewIterator m).
Proof.
  intros Hm. apply Forall_forall. intros kv Hkv.
  apply NewIterator_elem_of in Hkv. apply Hm. by rewrite Hkv.
Qed.

(** The loop takes the entries one by one and stops after the one that
    brings the counter up to [count]: at least one entry is taken when
    there is one. *)
Lemma BlocksMissing_loop_spec (it : list (bytes * bytes)) (count x : Z)
    (bis : list BlockIdentifier.t) :
  Forall (fun kv => length kv.1 = 41%nat) it ->
  BlocksMissing_loop count x it bis
  = Ok (bis ++ take (Z.to_nat (Z.max 1 (count - x)))
                    ((fun kv => decode_key kv.1) <$> it)).
Proof.
  intros Hit. revert x bis.
  induction Hit as [|[key v] it Hkey Hit IH]; intros x bis.
  - simpl. by rewrite take_nil, app_nil_r.
  - cbn [BlocksMissing_loop]. simpl in Hkey.
    rewrite keyToHeightHash_Ok by done. cbn [mbind result_bind fst snd].
    replace (BlockIdentifier.mk (BlockIdentifier.Height (decode_key key))
               (BlockIdentifier.Hash (decode_key key)))
      with (decode_key key) by (by destruct (decode_key key)).
    destruct (decide (x + 1 >= count)%Z) as [Hge|Hlt].
    + replace (Z.to_nat (Z.max 1 (count - x))) with 1%nat by lia.
      rewrite fmap_cons. simpl. by rewrite take_0.
    + rewrite IH.
      replace (Z.to_nat (Z.max 1 (count - x)))
        with (S (Z.to_nat (Z.max 1 (count - (x + 1))))) by lia.
      rewrite fmap_cons. cbn [take fst]. by rewrite <- app_assoc.
Qed.

Lemma BlocksMissing_spec (l : ldb) (count : Z) :
  (0 <= count)%Z ->
  missing_keys_sized (BlocksMissingDB l) ->
  BlocksMissing l count
  = Ok (take (Z.to_nat (Z.max 1 count))
             ((fun kv => decode_key kv.1) <$> NewIterator (BlocksMissingDB l))).
Proof.
  intros Hc Hm. unfold BlocksMissing.
  destruct (decide (count < 0)%Z); [lia|].
  rewrite BlocksMissing_loop_spec by by apply NewIterator_sized.
  by rewrite Z.sub_0_r.
Qed.

(** From one limit on, the result is the first [count] entries. *)
Lemma BlocksMissing_positive (l : ldb) (count : Z) :
  (1 <= count)%Z ->
  missing_keys_sized (BlocksMissingDB l) ->
  BlocksMissing l count
  = Ok (take (Z.to_nat count)
             ((fun kv => decode_key kv.1) <$> NewIterator (BlocksMissingDB l))).
Proof.
  intros Hc Hm. rewrite BlocksMissing_spec by (done || lia).
  by rewrite Z.max_r by lia.
Qed.

Lemma decode_key_mono (a b : bytes * bytes) :
  key_le a b ->
  BlockIdentifier.Height (decode_key a.1) <= BlockIdentifier.Height (decode_key b.1)
  \/ length (take 8 a.1) ≠ length (take 8 b.1).
Proof.
  intros Hab. destruct (decide (length (take 8 a.1) = length (take 8 b.1))) as [Hl|]; [|by right].
  left. unfold decode_key. cbn [BlockIdentifier.Height].
  apply (bytes_le_take 8) in Hab. unfold bytes_le in Hab.
  rewrite bytes_compare_be_value in Hab by done.
  by apply N.compare_le_iff.
Qed.

Lemma heights_sorted (it : list (bytes * bytes)) :
  Forall (fun kv => length kv.1 = 41%nat) it ->
  StronglySorted key_le it ->
  StronglySorted N.le
    (BlockIdentifier.Height <$> ((fun kv => decode_key kv.1) <$> it)).
Proof.
  intros Hit Hs. induction Hs as [|a it Hs IH Ha]; [constructor|].
  apply Forall_cons in Hit as [Hla Hit].
  rewrite !fmap_cons. constructor; [by apply IH|].
  rewrite <- list_fmap_compose. apply Forall_fmap.
  rewrite Forall_forall in Ha, Hit. apply Forall_forall. intros b Hb. simpl.
  destruct (decode_key_mono a b (Ha b Hb)) as [Hle|Hne]; [done|].
  rewrite !length_take, Hla, (Hit b Hb) in Hne. done.
Qed.

(** C6. [heightHashToKey] is monotone in the height: of two keys it
    produces, the one of the strictly smaller height is the smaller byte
    string.  Consequently [BlocksMissing], which walks the namespace in key
    order, returns its block identifiers in non-decreasing height order
    whenever the keys of the namespace are keys that [heightHashToKey]
    produced. *)
Theorem heightHashToKey_monotone_BlocksMissing_ordered :
  (forall (h1 h2 : N) (b1 b2 k1 k2 : bytes),
      h1 < h2 -> h2 < 2 ^ 64 ->
      heightHashToKey h1 b1 = Ok k1 ->
      heightHashToKey h2 b2 = Ok k2 ->
      bytes_lt k1 k2)
  /\
  (forall (l : ldb) (count : Z),
      (0 <= count)%Z ->
      (forall key, is_Some (BlocksMissingDB l !! key) ->
                   exists h b, heightHashToKey h b = Ok key) ->
      exists bis,
        BlocksMissing l count = Ok bis /\
        Sorted N.le (BlockIdentifier.Height <$> bis)).
Proof.
  split; [apply heightHashToKey_lt|].
  intros l count Hc Hkeys.
  assert (missing_keys_sized (BlocksMissingDB l)) as Hm.
  { intros key Hkey. destruct (Hkeys key Hkey) as (h & b & Hk).
    by eapply heightHashToKey_length. }
  eexists. split; [by apply BlocksMissing_spec|].
  apply StronglySorted_Sorted. rewrite fmap_take.
  eapply StronglySorted_app_1_l. rewrite take_drop.
  apply heights_sorted; [by apply NewIterator_sized|apply NewIterator_sorted].
Qed.

Lemma Sample_ldb2_missing :
  BlocksMissingDB Sample.ldb2
  = <[BigEndian.PutUint64 2 ++ x00 :: Sample.hash_of x02 := []]>
      (<[BigEndian.PutUint64 1 ++ x00 :: Sample.hash_of x01 := []]> ∅).
Proof. apply map_eq. intros key. vm_compute. reflexivity. Qed.

Lemma heightHashToKey_monotone_BlocksMissing_ordered_witness :
  (exists k1 k2,
      heightHashToKey 1 (Sample.hash_of x01) = Ok k1 /\
      heightHashToKey 2 (Sample.hash_of x02) = Ok k2 /\
      bytes_lt k1 k2)
  /\
  (exists bis,
      BlocksMissing Sample.ldb2 10%Z = Ok bis /\
      Sorted N.le (BlockIdentifier.Height <$> bis)).
Proof.
  split.
  - eexists _, _. split; [reflexivity|]. split; [reflexivity|].
    apply (proj1 heightHashToKey_monotone_BlocksMissing_ordered 1 2
             (Sample.hash_of x01) (Sample.hash_of x02));
      reflexivity.
  - apply (proj2 heightHashToKey_monotone_BlocksMissing_ordered Sample.ldb2 10%Z).
    + lia.
    + intros key. rewrite Sample_ldb2_missing.
      rewrite !lookup_insert_is_Some, lookup_empty.
      intros [<-|[_ [<-|[_ []%is_Some_None]]]].
      * exists 2, (Sample.hash_of x02). reflexivity.
      * exists 1, (Sample.hash_of x01). reflexivity.
Defined.

(** C7, at a limit of zero.  On a store with two missing blocks,
    [BlocksMissing] asked for no entries returns one: the loop appends the
    entry before it compares the counter with the limit. *)
Theorem BlocksMissing_zero_returns_one :
  BlocksMissing Sample.ldb2 0%Z
  = Ok [BlockIdentifier.mk 1 (Sample.hash_of x01)].
Proof. vm_compute. reflexivity. Qed.

(** ** Batches *)

Lemma tx_Write_snoc (b : Batch) (kv : bytes * bytes) (m : namespace) :
  tx_Write (b ++ [kv]) m = <[kv.1 := kv.2]> (tx_Write b m).
Proof. unfold tx_Write. by rewrite foldl_snoc. Qed.

(** A key holds what the last [Put] on it stored, or what it held before
    the batch. *)
Lemma tx_Write_lookup (b : Batch) (m : namespace) (k : bytes) :
  tx_Write b m !! k
  = match last (filter (fun kv => kv.1 = k) b) with
    | Some kv => Some kv.2
    | None => m !! k
    end.
Proof.
  induction b as [|kv b IH] using rev_ind; [done|].
  rewrite tx_Write_snoc, filter_app, filter_cons, filter_nil.
  destruct (decide (kv.1 = k)) as [Hk|Hk].
  - rewrite last_snoc, Hk. apply lookup_insert_eq.
  - rewrite app_nil_r, lookup_insert_ne by done. apply IH.
Qed.

Lemma tx_Write_lookup_notin (b : Batch) (m : namespace) (k : bytes) :
  k ∉ b.*1 -> tx_Write b m !! k = m !! k.
Proof.
  intros Hk. rewrite tx_Write_lookup.
  destruct (last _) as [kv|] eqn:E; [|done].
  apply last_Some_elem_of, list_elem_of_filter in E as [E1 E2].
  destruct Hk. apply list_elem_of_fmap. by exists kv.
Qed.

Lemma tx_Write_lookup_in (b : Batch) (m : namespace) (k : bytes) :
  k ∈ b.*1 -> exists v, (k, v) ∈ b /\ tx_Write b m !! k = Some v.
Proof.
  intros ([k' v] & -> & Hkv)%list_elem_of_fmap. simpl. rewrite tx_Write_lookup.
  destruct (last _) as [[k'' v']|] eqn:E.
  - apply last_Some_elem_of, list_elem_of_filter in E as [E1 E2].
    simpl in *. subst. by exists v'.
  - apply last_None in E.
    assert ((k', v) ∈ filter (fun kv : bytes * bytes => kv.1 = k') b) as Hin
      by by apply list_elem_of_filter.
    rewrite E in Hin. by apply not_elem_of_nil in Hin.
Qed.

(** ** [BlockHeadersInsert] *)

Section level_facts.
Context `{JSON} `{LevelDB}.

Lemma stamp_length clock k bhs : length (stamp clock k bhs) = length bhs.
Proof. revert k. induction bhs; intros k; simpl; auto. Qed.

Lemma stamp_lookup clock k bhs i :
  stamp clock k bhs !! i
  = BlockHeader.with_CreatedAt (clock (k + i)%nat) <$> bhs !! i.
Proof.
  revert k i. induction bhs as [|bh bhs IH]; intros k [|i]; simpl; try done.
  - by rewrite Nat.add_0_r.
  - rewrite IH. by replace (S k + i)%nat with (k + S i)%nat by lia.
Qed.

Lemma stamp_Hash clock k bhs :
  BlockHeader.Hash <$> stamp clock k bhs = BlockHeader.Hash <$> bhs.
Proof. revert k. induction bhs; intros k; simpl; [done|]. f_equal. auto. Qed.

Lemma header_puts_cons bh j bhs :
  marshalBlockHeader bh = Some j ->
  header_puts (bh :: bhs) = (BlockHeader.Hash bh, j) :: header_puts bhs.
Proof. intros Hj. unfold header_puts. simpl. by rewrite Hj. Qed.

Lemma missing_puts_cons bh bhs :
  missing_puts (bh :: bhs)
  = if decide (BlockHeader.Height bh ≠ 0)
    then (missing_key bh, []) :: missing_puts bhs
    else missing_puts bhs.
Proof. unfold missing_puts. rewrite filter_cons. by case_decide. Qed.

Lemma BlockHeadersInsert_loop_Ok clock k bhs acc :
  Forall well_formed bhs ->
  Forall (fun bh => is_Some (marshalBlockHeader bh)) (stamp clock k bhs) ->
  BlockHeadersInsert_loop clock k bhs acc
  = (stamp clock k bhs,
     Ok (mk_acc (bmBatch acc ++ missing_puts bhs)
                (bhsBatch acc ++ header_puts (stamp clock k bhs))
                (default (lastRecord acc)
                         (snd <$> last (header_puts (stamp clock k bhs)))))).
Proof.
  intros Hwf. revert k acc.
  induction Hwf as [|bh bhs [Hlen Hh] Hwf IH]; intros k acc Hm.
  - simpl. rewrite !app_nil_r. by destruct acc.
  - cbn [stamp] in Hm. apply Forall_cons in Hm as [[j Hj] Hm].
    cbn [BlockHeadersInsert_loop stamp].
    rewrite heightHashToKey_Ok by done.
    rewrite (header_puts_cons _ j) by done.
    rewrite missing_puts_cons, last_cons.
    destruct (decide (BlockHeader.Height bh ≠ 0)) as [Hne|Heq];
      cbn [mbind result_bind mret result_ret]; rewrite Hj, IH by done;
      cbn [bmBatch bhsBatch lastRecord]; unfold Batch_Put;
      rewrite <- !app_assoc; simpl;
      by destruct (last (header_puts (stamp clock (S k) bhs))).
Qed.

Lemma header_puts_fmap bhs :
  Forall (fun bh => is_Some (marshalBlockHeader bh)) bhs ->
  header_puts bhs
  = (fun bh => (BlockHeader.Hash bh, default [] (marshalBlockHeader bh))) <$> bhs.
Proof.
  induction 1 as [|bh bhs [j Hj] _ IH]; [done|].
  rewrite (header_puts_cons _ j), IH, fmap_cons by done. by rewrite Hj.
Qed.

Lemma missing_key_inj bh1 bh2 :
  well_formed bh1 -> well_formed bh2 ->
  missing_key bh1 = missing_key bh2 ->
  BlockHeader.Height bh1 = BlockHeader.Height bh2
  /\ BlockHeader.Hash bh1 = BlockHeader.Hash bh2.
Proof.
  intros [_ H1] [_ H2]. unfold missing_key. intros Heq.
  apply app_inj_1 in Heq as [Hh Hb]; [|done].
  split; [|by injection Hb].
  apply (f_equal be_value) in Hh.
  by rewrite !be_value_PutUint64, !N.mod_small in Hh.
Qed.

Lemma bhsLastKey_not_hash bhs :
  Forall well_formed bhs -> bhsLastKey ∉ BlockHeader.Hash <$> bhs.
Proof.
  intros Hwf (bh & Heq & Hin)%list_elem_of_fmap.
  rewrite Forall_forall in Hwf. destruct (Hwf bh Hin) as [Hl _].
  by rewrite <- Heq in Hl.
Qed.

Lemma stamp_well_formed clock k bhs :
  Forall well_formed bhs -> Forall well_formed (stamp clock k bhs).
Proof.
  intros Hwf. revert k. induction Hwf; intros k; simpl; constructor; auto.
Qed.

Lemma stamp_elem_of clock k bhs bh' :
  bh' ∈ stamp clock k bhs ->
  exists bh, bh ∈ bhs /\ BlockHeader.Hash bh' = BlockHeader.Hash bh
             /\ BlockHeader.Height bh' = BlockHeader.Height bh
             /\ BlockHeader.Header bh' = BlockHeader.Header bh.
Proof.
  intros (i & Hi)%list_elem_of_lookup. rewrite stamp_lookup in Hi.
  destruct (bhs !! i) as [bh|] eqn:E; [|done]. injection Hi as <-.
  exists bh. split; [|done]. apply list_elem_of_lookup. eauto.
Qed.

Lemma missing_puts_elem_of bhs key v :
  (key, v) ∈ missing_puts bhs <->
  v = [] /\ exists bh, bh ∈ bhs /\ BlockHeader.Height bh ≠ 0 /\ key = missing_key bh.
Proof.
  unfold missing_puts. rewrite list_elem_of_fmap. split.
  - intros (bh & [= -> ->] & [Hh Hin]%list_elem_of_filter). eauto.
  - intros (-> & bh & Hin & Hh & ->). exists bh. split; [done|].
    by apply list_elem_of_filter.
Qed.

(** The store after a successful [BlockHeadersInsert]. *)
Lemma BlockHeadersInsert_Ok l clock first rest :
  BlockHeadersDB l !! BlockHeader.Hash first = None ->
  Forall well_formed (first :: rest) ->
  Forall (fun bh => is_Some (marshalBlockHeader bh))
         (stamp clock 0 (first :: rest)) ->
  BlockHeadersInsert l clock (first :: rest)
  = (mk_ldb
       (<[bhsLastKey :=
            default [] (snd <$> last (header_puts (stamp clock 0 (first :: rest))))]>
          (tx_Write (header_puts (stamp clock 0 (first :: rest)))
                    (BlockHeadersDB l)))
       (tx_Write (missing_puts (first :: rest)) (BlocksMissingDB l))
       (BlocksDB l),
     stamp clock 0 (first :: rest), Ok tt).
Proof.
  intros Hnone Hwf Hm. unfold BlockHeadersInsert.
  destruct (decide (is_Some (BlockHeadersDB l !! BlockHeader.Hash first)))
    as [Hsome|_]; [rewrite Hnone in Hsome; by destruct Hsome|].
  rewrite BlockHeadersInsert_loop_Ok by done.
  cbn [bmBatch bhsBatch lastRecord app]. unfold Batch_Put.
  by rewrite tx_Write_snoc.
Qed.

(** C1. For a non-empty batch [first :: rest] of well-formed headers
    (32-byte hashes, uint64 heights) that the codec can encode, whose
    first hash is not stored yet, [BlockHeadersInsert] succeeds and
    - stores under each entry's hash the encoding of an entry of the
      batch with that hash, which is the entry itself when the hashes of
      the batch are pairwise distinct, and touches no other key of
      BlockHeaders but "last";
    - stores the empty value under [be_u64(height) ‖ 0x00 ‖ hash] for
      each entry above height 0, and touches no other key of
      BlocksMissing, in particular none of an entry at height 0;
    - leaves Blocks alone;
    - stores under "last" the encoding of the final header of the batch,
      so that [BlockHeadersBest] then returns that header. *)
Theorem BlockHeadersInsert_writes l clock first rest :
  let bhs := first :: rest in
  let stamped := stamp clock 0 bhs in
  BlockHeadersDB l !! BlockHeader.Hash first = None ->
  Forall well_formed bhs ->
  Forall (fun bh => is_Some (marshalBlockHeader bh)) stamped ->
  (forall final j, last stamped = Some final ->
                   marshalBlockHeader final = Some j ->
                   unmarshalBlockHeader j = Some final) ->
  exists l',
    BlockHeadersInsert l clock bhs = (l', stamped, Ok tt) /\
    (forall bh, bh ∈ bhs ->
       exists bh' j, bh' ∈ stamped /\
                     BlockHeader.Hash bh' = BlockHeader.Hash bh /\
                     marshalBlockHeader bh' = Some j /\
                     BlockHeadersDB l' !! BlockHeader.Hash bh = Some j) /\
    (NoDup (BlockHeader.Hash <$> bhs) ->
     forall i bh, bhs !! i = Some bh ->
       exists j, marshalBlockHeader
                   (BlockHeader.with_CreatedAt (clock i) bh) = Some j /\
                 BlockHeadersDB l' !! BlockHeader.Hash bh = Some j) /\
    (forall key, key ≠ bhsLastKey -> key ∉ BlockHeader.Hash <$> bhs ->
                 BlockHeadersDB l' !! key = BlockHeadersDB l !! key) /\
    (forall bh, bh ∈ bhs -> BlockHeader.Height bh ≠ 0 ->
                BlocksMissingDB l' !! missing_key bh = Some []) /\
    (forall key,
        (forall bh, bh ∈ bhs -> BlockHeader.Height bh ≠ 0 ->
                    key ≠ missing_key bh) ->
        BlocksMissingDB l' !! key = BlocksMissingDB l !! key) /\
    (forall bh, bh ∈ bhs -> BlockHeader.Height bh = 0 ->
                BlocksMissingDB l' !! missing_key bh
                = BlocksMissingDB l !! missing_key bh) /\
    BlocksDB l' = BlocksDB l /\
    (exists final j,
        last stamped = Some final /\
        marshalBlockHeader final = Some j /\
        BlockHeadersDB l' !! bhsLastKey = Some j /\
        BlockHeadersBest l' = Ok [final]).
Proof.
  intros bhs stamped Hnone Hwf Hm Hround.
  eexists. split; [by apply BlockHeadersInsert_Ok|].
  cbn [BlockHeadersDB BlocksMissingDB BlocksDB].
  fold bhs. fold stamped.
  pose proof (bhsLastKey_not_hash bhs Hwf) as Hlast.
  assert ((header_puts stamped).*1 = BlockHeader.Hash <$> bhs) as Hkeys.
  { rewrite header_puts_fmap by done. rewrite <- list_fmap_compose.
    unfold stamped. by rewrite <- (stamp_Hash clock 0 bhs). }
  assert (forall key v, (key, v) ∈ header_puts stamped ->
            exists bh', bh' ∈ stamped /\ BlockHeader.Hash bh' = key /\
                        marshalBlockHeader bh' = Some v) as Hputs.
  { intros key v (bh' & Hin & Hv)%list_elem_of_omap.
    destruct (marshalBlockHeader bh') as [j|] eqn:Hj; [|done].
    injection Hv as <- <-. eauto. }
  assert (forall bh, bh ∈ bhs ->
            exists bh' j, bh' ∈ stamped /\
                          BlockHeader.Hash bh' = BlockHeader.Hash bh /\
                          marshalBlockHeader bh' = Some j /\
                          <[bhsLastKey :=
                              default [] (snd <$> last (header_puts stamped))]>
                            (tx_Write (header_puts stamped) (BlockHeadersDB l))
                            !! BlockHeader.Hash bh = Some j) as HA.
  { intros bh Hin.
    assert (BlockHeader.Hash bh ∈ BlockHeader.Hash <$> bhs) as Hh
      by (apply list_elem_of_fmap; eauto).
    rewrite lookup_insert_ne by (intros Heq; by rewrite Heq in Hlast).
    rewrite <- Hkeys in Hh.
    destruct (tx_Write_lookup_in _ (BlockHeadersDB l) _ Hh) as (v & Hv & Hlk).
    destruct (Hputs _ _ Hv) as (bh' & Hin' & Hhash & Hj). eauto 10. }
  split; [exact HA|].
  split.
  { intros Hnd i bh Hi.
    assert (bh ∈ bhs) as Hin by (apply list_elem_of_lookup; eauto).
    destruct (HA bh Hin) as (bh' & j & Hin' & Hhash & Hj & Hlk).
    exists j. split; [|done].
    apply list_elem_of_lookup in Hin' as [i' Hi'].
    unfold stamped in Hi'. rewrite stamp_lookup in Hi'.
    destruct (bhs !! i') as [bh2|] eqn:E2; [|done]. injection Hi' as <-.
    simpl in Hhash.
    assert (i' = i) as ->.
    { eapply NoDup_lookup; [exact Hnd| |].
      - rewrite list_lookup_fmap, E2. done.
      - rewrite list_lookup_fmap, Hi. simpl. by rewrite Hhash. }
    rewrite Hi in E2. by injection E2 as <-. }
  split.
  { intros key Hk1 Hk2. rewrite lookup_insert_ne by done.
    apply tx_Write_lookup_notin. by rewrite Hkeys. }
  assert (forall key,
             (forall bh, bh ∈ bhs -> BlockHeader.Height bh ≠ 0 ->
                         key ≠ missing_key bh) ->
             tx_Write (missing_puts bhs) (BlocksMissingDB l) !! key
             = BlocksMissingDB l !! key) as HE.
  { intros key Hkey. apply tx_Write_lookup_notin.
    intros ([k v] & -> & Hkv)%list_elem_of_fmap.
    apply missing_puts_elem_of in Hkv as (_ & bh & Hin & Hh & Heq).
    by apply (Hkey bh). }
  split.
  { intros bh Hin Hh.
    assert (missing_key bh ∈ (missing_puts bhs).*1) as Hmk.
    { apply list_elem_of_fmap. exists (missing_key bh, []). split; [done|].
      apply missing_puts_elem_of. eauto. }
    destruct (tx_Write_lookup_in _ (BlocksMissingDB l) _ Hmk) as (v & Hv & Hlk).
    apply missing_puts_elem_of in Hv as [-> _]. done. }
  split; [exact HE|].
  split.
  { intros bh Hin Hh. apply HE. intros bh2 Hin2 Hh2 Heq.
    rewrite Forall_forall in Hwf.
    destruct (missing_key_inj bh bh2 (Hwf _ Hin) (Hwf _ Hin2) Heq) as [Hhh _].
    congruence. }
  split; [done|].
  destruct (last stamped) as [final|] eqn:Hfinal;
    [|by apply last_None in Hfinal].
  assert (is_Some (marshalBlockHeader final)) as [j Hj].
  { rewrite Forall_forall in Hm. apply Hm. by apply last_Some_elem_of. }
  exists final, j. split; [done|]. split; [done|].
  assert (default [] (snd <$> last (header_puts stamped)) = j) as ->.
  { rewrite header_puts_fmap, fmap_last, Hfinal by done. simpl. by rewrite Hj. }
  split; [apply lookup_insert_eq|].
  unfold BlockHeadersBest. cbn [BlockHeadersDB].
  rewrite lookup_insert_eq. by rewrite (Hround final j).
Qed.

End level_facts.

Section samples.
#[local] Existing Instances Sample.json Sample.quiet_delete Sample.wire.

Lemma BlockHeadersInsert_writes_witness :
  exists l',
    BlockHeadersInsert Sample.ldb0 Sample.clock Sample.batch12
    = (l', stamp Sample.clock 0 Sample.batch12, Ok tt) /\
    BlocksMissingDB l' !! missing_key (Sample.header x01 1) = Some [] /\
    BlocksMissingDB l' !! missing_key (Sample.header x02 2) = Some [] /\
    BlockHeadersBest l'
    = Ok [BlockHeader.with_CreatedAt (Sample.clock 1) (Sample.header x02 2)].
Proof.
  destruct (BlockHeadersInsert_writes Sample.ldb0 Sample.clock
              (Sample.header x01 1) [Sample.header x02 2])
    as (l' & Hins & _ & _ & _ & Hmiss & _ & _ & _ & final & j & Hlast & _ & _ & Hbest).
  - vm_compute. reflexivity.
  - repeat constructor.
  - repeat constructor; vm_compute; eauto.
  - intros final j Hlast Hj. vm_compute in Hlast. injection Hlast as <-.
    vm_compute in Hj. injection Hj as <-. vm_compute. reflexivity.
  - exists l'. split; [exact Hins|].
    split; [apply Hmiss; [set_solver | done]|].
    split; [apply Hmiss; [set_solver | done]|].
    vm_compute in Hlast. injection Hlast as <-. exact Hbest.
Defined.

End samples.

Section insert_twice.
Context `{JSON}.

(** What a completed run of the loop tells about its batches. *)
Lemma BlockHeadersInsert_loop_inv clock k bhs acc bhs' acc' :
  BlockHeadersInsert_loop clock k bhs acc = (bhs', Ok acc') ->
  bhs' = stamp clock k bhs /\
  forall key,
    key ∈ (bhsBatch acc).*1 \/ key ∈ BlockHeader.Hash <$> bhs ->
    key ∈ (bhsBatch acc').*1.
Proof.
  revert k acc bhs' acc'.
  induction bhs as [|bh bhs IH]; intros k acc bhs' acc'.
  - simpl. intros [= <- <-]. split; [done|].
    intros key [Hk|Hk]; [done|]. by apply not_elem_of_nil in Hk.
  - cbn [BlockHeadersInsert_loop stamp].
    destruct (if decide (BlockHeader.Height bh ≠ 0) then _ else _)
      as [bm'| |]; [|done|done].
    destruct (marshalBlockHeader _) as [bhj|]; [|done].
    destruct (BlockHeadersInsert_loop _ _ _ _) as [rest' r] eqn:Hloop.
    intros [= <- ->]. apply IH in Hloop as [-> Hkeys].
    split; [done|]. intros key Hkey. apply Hkeys.
    cbn [bhsBatch]. unfold Batch_Put. rewrite fmap_app, elem_of_app.
    rewrite fmap_cons, elem_of_cons in Hkey. simpl.
    destruct Hkey as [Hkey|[->|Hkey]]; [by left; left| |by right].
    left. right. apply list_elem_of_singleton. done.
Qed.

(** C4. When a header batch has been inserted, inserting it again,
    whether as the slice the first call left behind or as the batch it
    was given, returns Duplicate and writes nothing: the three
    namespaces and the slice are as the first call left them. *)
Theorem BlockHeadersInsert_twice l clock1 clock2 bhs l1 bhs1 :
  BlockHeadersInsert l clock1 bhs = (l1, bhs1, Ok tt) ->
  bhs ≠ [] /\
  BlockHeadersInsert l1 clock2 bhs1
  = (l1, bhs1, Err (DuplicateError "block headers insert duplicate")) /\
  BlockHeadersInsert l1 clock2 bhs
  = (l1, bhs, Err (DuplicateError "block headers insert duplicate")).
Proof.
  unfold BlockHeadersInsert at 1.
  destruct bhs as [|first rest]; [done|].
  destruct (decide (is_Some (BlockHeadersDB l !! BlockHeader.Hash first)));
    [done|].
  destruct (BlockHeadersInsert_loop _ _ _ _) as [bhs' [acc| |]] eqn:Hloop;
    [|done|done].
  intros [= <- <-]. apply BlockHeadersInsert_loop_inv in Hloop as [-> Hkeys].
  split; [done|].
  assert (is_Some (tx_Write (Batch_Put (bhsBatch acc) bhsLastKey (lastRecord acc))
                     (BlockHeadersDB l) !! BlockHeader.Hash first)) as Hsome.
  { assert (BlockHeader.Hash first
            ∈ (Batch_Put (bhsBatch acc) bhsLastKey (lastRecord acc)).*1) as Hin.
    { unfold Batch_Put. rewrite fmap_app, elem_of_app. left. apply Hkeys.
      right. rewrite fmap_cons. apply elem_of_cons. by left. }
    destruct (tx_Write_lookup_in _ (BlockHeadersDB l) _ Hin) as (v & _ & ->).
    eauto. }
  unfold BlockHeadersInsert. cbn [stamp BlockHeadersDB].
  cbn [BlockHeader.with_CreatedAt BlockHeader.Hash].
  destruct (decide _) as [_|Hn]; [done|]. by destruct Hn.
Qed.

End insert_twice.

Section block_insert.
Context `{JSON} `{LevelDB}.

Lemma int64_of_uint64_small (x : N) :
  x < 2 ^ 63 -> int64_of_uint64 x = Z.of_N x.
Proof.
  intros Hx. unfold int64_of_uint64, wrap64, uint64_max.
  assert (x < 2 ^ 64) by (change (2 ^ 63) with 9223372036854775808 in Hx;
                          change (2 ^ 64) with 18446744073709551616; lia).
  rewrite N.mod_small by done.
  destruct (Z.ltb_spec (Z.of_N x) (2 ^ 63)) as [|Hge]; [done|].
  change (2 ^ 63) with 9223372036854775808 in Hx.
  change (2 ^ 63)%Z with 9223372036854775808%Z in Hge. lia.
Qed.

(** C3. For a block whose hash has a stored header record [bh] at height
    [H] below [2^63], [BlockInsert] returns [H], removes the key
    [be_u64(H) ‖ 0x00 ‖ hash] from BlocksMissing and nothing else,
    stores the encoded block under the hash in Blocks and nothing else,
    and leaves BlockHeaders alone.  Whether the key was there does not
    matter to the result; when it was not and the engine reports that,
    one line is logged. *)
Theorem BlockInsert_stored l b bhj bh bj :
  BlockHeadersDB l !! Block.Hash b = Some bhj ->
  unmarshalBlockHeader bhj = Some bh ->
  BlockHeader.Hash bh = Block.Hash b ->
  length (Block.Hash b) = HashSize ->
  BlockHeader.Height bh < 2 ^ 63 ->
  marshalBlock b = Some bj ->
  let key := BigEndian.PutUint64 (BlockHeader.Height bh) ++ x00 :: Block.Hash b in
  exists l' logged,
    BlockInsert l b = (l', logged, Ok (Z.of_N (BlockHeader.Height bh))) /\
    BlocksMissingDB l' !! key = None /\
    (forall key', key' ≠ key ->
                  BlocksMissingDB l' !! key' = BlocksMissingDB l !! key') /\
    BlocksDB l' !! Block.Hash b = Some bj /\
    (forall hash, hash ≠ Block.Hash b ->
                  BlocksDB l' !! hash = BlocksDB l !! hash) /\
    BlockHeadersDB l' = BlockHeadersDB l /\
    logged = (if delete_reports_missing
                 && bool_decide (BlocksMissingDB l !! key = None)
              then ["block insert delete from missing"] else []).
Proof.
  intros Hget Hun Hhash Hlen Hh Hbj key. unfold BlockInsert.
  rewrite Hget, Hun, heightHashToKey_Ok by by rewrite Hhash.
  rewrite Hhash. fold key. unfold tx_Delete. rewrite Hbj.
  rewrite int64_of_uint64_small by done.
  eexists _, _. split; [reflexivity|]. cbn [BlocksMissingDB BlocksDB BlockHeadersDB].
  split; [apply lookup_delete_eq|].
  split; [intros key' Hne; by apply lookup_delete_ne|].
  split; [apply lookup_insert_eq|].
  split; [intros hash Hne; by apply lookup_insert_ne|].
  split; [done|].
  by destruct (delete_reports_missing && _).
Qed.

(** C5. [BlockInsert] of a block whose hash has no header record returns
    a NotFound error and leaves the three namespaces as they were;
    nothing is logged. *)
Theorem BlockInsert_no_header l b :
  BlockHeadersDB l !! Block.Hash b = None ->
  exists msg, BlockInsert l b = (l, [], Err (NotFoundError msg)).
Proof. intros Hget. unfold BlockInsert. rewrite Hget. eauto. Qed.

End block_insert.

Section block_insert_samples.
#[local] Existing Instances Sample.json Sample.quiet_delete.

Lemma BlockHeadersInsert_twice_witness :
  BlockHeadersInsert Sample.ldb2 Sample.clock
    (stamp Sample.clock 0 Sample.batch12)
  = (Sample.ldb2, stamp Sample.clock 0 Sample.batch12,
     Err (DuplicateError "block headers insert duplicate")).
Proof.
  apply (BlockHeadersInsert_twice Sample.ldb0 Sample.clock Sample.clock
           Sample.batch12 Sample.ldb2 (stamp Sample.clock 0 Sample.batch12)).
  vm_compute. reflexivity.
Defined.

Lemma BlockInsert_stored_witness :
  exists l' logged,
    BlockInsert Sample.ldb2 Sample.block1 = (l', logged, Ok 1%Z) /\
    BlocksMissingDB l' !! missing_key (Sample.header x01 1) = None /\
    BlocksDB l' !! Sample.hash_of x01
    = Some (Sample.hash_of x01 ++ [xaa; xbb]).
Proof.
  pose (bh := BlockHeader.with_CreatedAt (Sample.clock 0) (Sample.header x01 1)).
  destruct (BlockInsert_stored Sample.ldb2 Sample.block1
              (default [] (Sample.marshal_header bh)) bh
              (Sample.hash_of x01 ++ [xaa; xbb]))
    as (l' & logged & Hins & Hgone & _ & Hblock & _).
  - vm_compute. reflexivity.
  - vm_compute. reflexivity.
  - reflexivity.
  - reflexivity.
  - reflexivity.
  - reflexivity.
  - exists l', logged. split; [exact Hins|]. split; [exact Hgone|exact Hblock].
Defined.

Lemma BlockInsert_no_header_witness :
  exists msg,
    BlockInsert Sample.ldb2 Sample.block9
    = (Sample.ldb2, [], Err (NotFoundError msg)).
Proof.
  apply (BlockInsert_no_header Sample.ldb2 Sample.block9).
  vm_compute. reflexivity.
Defined.

End block_insert_samples.

(** ** [handleHeaders] *)

Section handle_headers.
Context `{JSON} `{Wire}.

Lemma connects_tail pbh m rest : connects pbh (m :: rest) -> connects m rest.
Proof.
  intros Hc i m' p Hi Hp. destruct i as [|j]; simpl in Hp.
  - injection Hp as <-. by apply (Hc 1%nat m' m).
  - by apply (Hc (S (S j)) m' p).
Qed.

Lemma handleHeaders_range_connected pbh height msg headers :
  connects pbh msg ->
  Forall (fun m => is_Some (Serialize m)) msg ->
  handleHeaders_range pbh height msg headers
  = Connected (headers ++ headers_of height msg).
Proof.
  revert pbh height headers.
  induction msg as [|m rest IH]; intros pbh height headers Hc Hs.
  - simpl. by rewrite app_nil_r.
  - apply Forall_cons in Hs as [[hb Hhb] Hs].
    cbn [handleHeaders_range headers_of].
    destruct (decide (PrevBlock m ≠ BlockHash pbh)) as [Hne|_].
    + destruct Hne. by apply (Hc 0%nat m pbh).
    + rewrite Hhb, (IH m) by eauto using connects_tail.
      simpl. by rewrite <- app_assoc.
Qed.

Lemma handleHeaders_range_mismatch pbh height msg headers i m p :
  msg !! i = Some m -> parent_of pbh msg i = Some p ->
  PrevBlock m ≠ BlockHash p ->
  (exists prev h, handleHeaders_range pbh height msg headers = CannotConnect prev h)
  \/ handleHeaders_range pbh height msg headers = SerializePanic.
Proof.
  revert pbh height headers i.
  induction msg as [|m0 rest IH]; intros pbh height headers i Hi Hp Hne; [done|].
  cbn [handleHeaders_range].
  destruct (decide (PrevBlock m0 ≠ BlockHash pbh)) as [|Heq]; [eauto|].
  destruct (Serialize m0) as [hb|]; [|by right].
  destruct i as [|[|j]]; simpl in Hi, Hp.
  - injection Hi as ->. injection Hp as ->. by destruct Heq.
  - injection Hp as <-. by apply (IH m0 _ _ 0%nat).
  - by apply (IH m0 _ _ (S j)).
Qed.

Lemma headers_of_length height msg : length (headers_of height msg) = length msg.
Proof. revert height. induction msg; intros; simpl; auto. Qed.

Lemma headers_of_lookup height msg i m :
  height + N.of_nat (length msg) <= 2 ^ 64 ->
  msg !! i = Some m ->
  headers_of height msg !! i
  = Some (BlockHeader.mk (BlockHash m) (height + N.of_nat i)
            (default [] (Serialize m)) 0%Z).
Proof.
  revert height i. induction msg as [|m0 rest IH]; intros height i Hb Hi; [done|].
  destruct i as [|i]; simpl in Hi.
  - injection Hi as ->. simpl. by rewrite N.add_0_r.
  - cbn [headers_of]. simpl length in Hb.
    replace (N.of_nat (S i)) with (1 + N.of_nat i) by lia.
    rewrite N.add_assoc. simpl.
    assert (wrap64 (height + 1) = height + 1) as ->.
    { pose proof (lookup_lt_Some _ _ _ Hi).
      unfold wrap64, uint64_max. apply N.mod_small. lia. }
    by rewrite (IH _ i) by (done || lia).
Qed.

(** C2. A non-empty headers message whose first header's parent is
    stored at height [H] (with room for the batch below [2^64]).
    - When every header connects (the first to the stored parent, each
      other to the header before it), the list handed to
      [BlockHeadersInsert] has one entry per header, entry [i] with
      height [H + 1 + i], the header's block hash and its raw bytes, and
      the store after the call is the store after that insert.
    - When some header does not connect, the call ends before
      [BlockHeadersInsert]: the server, and with it the store, is
      returned as it was, and the branch taken is the one that reports
      the header that does not connect (or a panic of the serialiser on
      a header before it). *)
Theorem handleHeaders_connects_or_aborts s o first rest dbpbh pbh :
  let msg := first :: rest in
  let ph := BlockHeader.Height dbpbh in
  BlockHeaderByHash (db s) (PrevBlock first) = Ok dbpbh ->
  Deserialize (BlockHeader.Header dbpbh) = Some pbh ->
  ph + N.of_nat (length msg) < 2 ^ 64 ->
  (connects pbh msg ->
   Forall (fun m => is_Some (Serialize m)) msg ->
   exists headers,
     length headers = length msg /\
     (forall i m, msg !! i = Some m ->
        exists bh, headers !! i = Some bh /\
                   BlockHeader.Height bh = ph + 1 + N.of_nat i /\
                   BlockHeader.Hash bh = BlockHash m /\
                   Some (BlockHeader.Header bh) = Serialize m) /\
     (handleHeaders s o msg).1
     = set_db (BlockHeadersInsert (db s) (now o) headers).1.1 s /\
     (handleHeaders s o msg).2
     = match BlockHeadersInsert (db s) (now o) headers with
       | (_, headers', Ok _) => Inserted headers'
       | (_, _, Err e) => InsertFailed e
       | (_, _, Panic _) => Panicked
       end)
  /\
  (forall i m p,
      msg !! i = Some m -> parent_of pbh msg i = Some p ->
      PrevBlock m ≠ BlockHash p ->
      (exists prev height, handleHeaders s o msg = (s, NotConnected prev height))
      \/ handleHeaders s o msg = (s, Panicked)).
Proof.
  intros msg ph Hparent Hde Hroom.
  pose proof (eq_refl : length msg = S (length rest)) as Hlen.
  assert (wrap64 (ph + 1) = ph + 1) as Hw.
  { unfold wrap64, uint64_max. apply N.mod_small. lia. }
  split.
  - intros Hc Hs. exists (headers_of (ph + 1) msg).
    split; [apply headers_of_length|].
    split.
    { intros i m Hi. eexists. split; [apply headers_of_lookup; [lia|done]|].
      cbn [BlockHeader.Height BlockHeader.Hash BlockHeader.Header].
      split; [lia|]. split; [done|].
      rewrite Forall_forall in Hs.
      destruct (Hs m) as [hb ->]; [|done].
      apply list_elem_of_lookup. eauto. }
    unfold handleHeaders, msg. cbv iota beta.
    rewrite Hparent, Hde. fold ph. rewrite Hw.
    rewrite handleHeaders_range_connected by done. rewrite app_nil_l.
    fold msg.
    destruct (decide (0 < length (headers_of (ph + 1) msg))%nat) as [_|Hn];
      [|rewrite headers_of_length in Hn; simpl in Hn; lia].
    by destruct (BlockHeadersInsert _ _ _) as [[l' hs'] [[]| |]].
  - intros i m p Hi Hp Hne. subst msg ph.
    unfold handleHeaders. cbv iota beta. rewrite Hparent, Hde.
    destruct (handleHeaders_range_mismatch pbh
                (wrap64 (BlockHeader.Height dbpbh + 1)) (first :: rest) []
                i m p Hi Hp Hne) as [(prev & h & ->)| ->]; eauto.
Qed.

End handle_headers.

Section handle_headers_samples.
#[local] Existing Instances Sample.json Sample.wire.

Lemma handleHeaders_connects_or_aborts_witness :
  let s := NewServer Sample.ldbw in
  (exists headers bh0 bh1,
      headers !! 0%nat = Some bh0 /\ BlockHeader.Height bh0 = 1 /\
      headers !! 1%nat = Some bh1 /\ BlockHeader.Height bh1 = 2 /\
      (handleHeaders s Sample.oracle0 [Sample.wire1; Sample.wire2]).1
      = set_db (BlockHeadersInsert Sample.ldbw Sample.clock headers).1.1 s)
  /\
  ((exists prev height,
       handleHeaders s Sample.oracle0 [Sample.wire1; Sample.wire3]
       = (s, NotConnected prev height))
   \/ handleHeaders s Sample.oracle0 [Sample.wire1; Sample.wire3]
      = (s, Panicked)).
Proof.
  intros s.
  pose (dbpbh := BlockHeader.with_CreatedAt (Sample.clock 0) Sample.genesis_wire).
  pose (pbh := (Sample.hash_of xff, Sample.hash_of x00) : wire_BlockHeader).
  split.
  - destruct (handleHeaders_connects_or_aborts s Sample.oracle0
                Sample.wire1 [Sample.wire2] dbpbh pbh)
      as [Hok _].
    + vm_compute. reflexivity.
    + vm_compute. reflexivity.
    + vm_compute. reflexivity.
    + destruct Hok as (headers & _ & Hlk & Hdb & _).
      * intros [|[|i]] m p Hi Hp; simpl in Hi, Hp; simplify_eq; reflexivity.
      * repeat constructor; eexists; reflexivity.
      * destruct (Hlk 0%nat Sample.wire1 eq_refl) as (bh0 & H0 & Hh0 & _).
        destruct (Hlk 1%nat Sample.wire2 eq_refl) as (bh1 & H1 & Hh1 & _).
        exists headers, bh0, bh1. repeat split; assumption.
  - destruct (handleHeaders_connects_or_aborts s Sample.oracle0
                Sample.wire1 [Sample.wire3] dbpbh pbh)
      as [_ Hbad].
    + vm_compute. reflexivity.
    + vm_compute. reflexivity.
    + vm_compute. reflexivity.
    + apply (Hbad 1%nat Sample.wire3 Sample.wire1); [reflexivity|reflexivity|].
      vm_compute. discriminate.
Defined.

End handle_headers_samples.

(** ** The pending-blocks cache *)

Lemma blockPeerAdd_error s now hash p s' e :
  blockPeerAdd s now hash p = (s', Some e) -> s' = s.
Proof.
  unfold blockPeerAdd. destruct (peers s !! p); [|by intros [= <-]].
  destruct (blocks s !! hash); by intros [= <-].
Qed.

Lemma blockPeerAdd_size s now hash p :
  (size (blocks (blockPeerAdd s now hash p).1) <= S (size (blocks s)))%nat.
Proof.
  unfold blockPeerAdd. destruct (peers s !! p); [|simpl; lia].
  destruct (blocks s !! hash) eqn:E; simpl; [lia|].
  by rewrite map_size_insert_None.
Qed.

Lemma randPeerWrite_range_size s now hash order :
  (size (blocks (randPeerWrite_range s now hash order).1) <= S (size (blocks s)))%nat.
Proof.
  induction order as [|k rest IH]; simpl; [lia|].
  destruct (peers s !! k) as [v|]; [|done].
  destruct (negb (peer.conn v)); [done|].
  destruct (blockPeerAdd s now hash k) as [s' [e|]] eqn:E.
  - apply blockPeerAdd_error in E as ->. done.
  - pose proof (blockPeerAdd_size s now hash k) as Hs. by rewrite E in Hs.
Qed.

Lemma randPeerWrite_adds_one s now order hash :
  (size (blocks (randPeerWrite s now order hash).1) <= S (size (blocks s)))%nat.
Proof.
  unfold randPeerWrite. case_decide; simpl; [lia|].
  pose proof (randPeerWrite_range_size s now hash order) as Hs.
  by destruct (randPeerWrite_range s now hash order) as [s' [p|]].
Qed.

Lemma randPeerWrite_full s now order hash :
  (defaultPendingBlocks <= size (blocks s))%nat ->
  randPeerWrite s now order hash = (s, rpw_error errCacheFull).
Proof. intros Hfull. unfold randPeerWrite. by case_decide. Qed.

Lemma randPeerWrite_bound s now order hash :
  (size (blocks s) <= defaultPendingBlocks)%nat ->
  (size (blocks (randPeerWrite s now order hash).1) <= defaultPendingBlocks)%nat.
Proof.
  intros Hs.
  destruct (decide (defaultPendingBlocks <= size (blocks s))%nat) as [Hfull|Hroom].
  - by rewrite randPeerWrite_full.
  - pose proof (randPeerWrite_adds_one s now order hash). lia.
Qed.

Lemma blockPeerExpire_size s now :
  (size (blocks (blockPeerExpire s now).1) <= size (blocks s))%nat.
Proof.
  unfold blockPeerExpire. simpl. apply map_subseteq_size, map_filter_subseteq.
Qed.

Section cache_bound.
Context `{JSON} `{LevelDB} `{Wire}.

Lemma downloadBlocks_bound s o k bis :
  (size (blocks s) <= defaultPendingBlocks)%nat ->
  (size (blocks (downloadBlocks s o k bis)) <= defaultPendingBlocks)%nat.
Proof.
  revert s k. induction bis as [|bi rest IH]; intros s k Hs; simpl; [done|].
  pose proof (randPeerWrite_bound s (now o k) (range_peers o k)
                (Hash_String (BlockIdentifier.Hash bi)) Hs) as Hs'.
  destruct (randPeerWrite _ _ _ _) as [s' r]. by apply IH.
Qed.

Lemma checkBlockCache_bound s o :
  (size (blocks s) <= defaultPendingBlocks)%nat ->
  (size (blocks (checkBlockCache s o)) <= defaultPendingBlocks)%nat.
Proof.
  intros Hs. unfold checkBlockCache.
  pose proof (blockPeerExpire_size s (now o 0%nat)) as He.
  destruct (blockPeerExpire s (now o 0%nat)) as [s1 used]. simpl in He.
  assert (size (blocks s1) <= defaultPendingBlocks)%nat as Hs1 by lia.
  case_decide; [done|].
  destruct (BlocksMissing (db s1) _); [|done|done].
  by apply downloadBlocks_bound.
Qed.

Lemma handleHeaders_blocks s o msg :
  blocks (handleHeaders s o msg).1 = blocks s
  \/ (handleHeaders s o msg).1 = checkBlockCache s o.
Proof.
  unfold handleHeaders. destruct msg as [|first rest]; [by right|]. left.
  destruct (BlockHeaderByHash _ _); [|done|done].
  destruct (Deserialize _); [|done].
  destruct (handleHeaders_range _ _ _ _); [|done|done].
  case_decide; [|done].
  by destruct (BlockHeadersInsert _ _ _) as [[l' hs'] [[]| |]].
Qed.

Lemma step_bound s s' :
  locked_step s s' ->
  (size (blocks s) <= defaultPendingBlocks)%nat ->
  (size (blocks s') <= defaultPendingBlocks)%nat.
Proof.
  intros Hstep Hs. destruct Hstep.
  - by apply randPeerWrite_bound.
  - pose proof (blockPeerExpire_size s now0). lia.
  - by apply downloadBlocks_bound.
  - by apply checkBlockCache_bound.
  - destruct (handleHeaders_blocks s o msg) as [->| ->]; [done|].
    by apply checkBlockCache_bound.
  - done.
  - simpl.
    pose proof (map_subseteq_size _ _ (delete_subseteq (blocks s) bhs)). lia.
  - unfold handleBlock_cache. apply checkBlockCache_bound. simpl.
    pose proof (map_subseteq_size _ _ (delete_subseteq (blocks s) bhs)). lia.
  - done.
  - done.
Qed.

(** Under the lock the bound holds.  [randPeerWrite] refuses with
    [errCacheFull] and changes nothing when 128 or more entries are
    pending, and a call adds at most one entry; [blockPeerExpire] does not
    grow the map; so no state that the moves made under [s.mtx] lead to
    holds more than [defaultPendingBlocks] (128) entries. *)
Lemma pending_blocks_bounded_under_lock :
  (forall s now order hash,
      (defaultPendingBlocks <= size (blocks s))%nat ->
      randPeerWrite s now order hash = (s, rpw_error errCacheFull))
  /\
  (forall s now order hash,
      (size (blocks (randPeerWrite s now order hash).1)
       <= S (size (blocks s)))%nat)
  /\
  (forall s now,
      (size (blocks (blockPeerExpire s now).1) <= size (blocks s))%nat)
  /\
  (forall s, locked_reachable s -> (size (blocks s) <= 128)%nat).
Proof.
  split; [apply randPeerWrite_full|].
  split; [apply randPeerWrite_adds_one|].
  split; [apply blockPeerExpire_size|].
  intros s Hr. change 128%nat with defaultPendingBlocks.
  induction Hr as [l|s s' Hr IH Hstep].
  - unfold NewServer. simpl. rewrite map_size_empty. unfold defaultPendingBlocks. lia.
  - by apply (step_bound s s').
Qed.

End cache_bound.

(** ** [handleInv] without the lock *)

Section unlocked_facts.
Context `{Wire}.

(** The two moves, made one after the other, are [randPeerWrite]. *)
Lemma randPeerWrite_two_moves s now order hash :
  randPeerWrite s now order hash
  = if randPeerWrite_cacheFull s then (s, rpw_error errCacheFull)
    else randPeerWrite_loop s now order hash.
Proof.
  unfold randPeerWrite, randPeerWrite_cacheFull, randPeerWrite_loop.
  destruct (decide (defaultPendingBlocks <= size (blocks s))%nat) as [Hf|Hf].
  - by rewrite bool_decide_eq_true_2.
  - by rewrite bool_decide_eq_false_2.
Qed.

Lemma inv_goroutine_alone_S s o k fuel g :
  inv_goroutine_alone s o k (S fuel) g
  = match inv_goroutine_step s (now o k) (range_peers o k) g with
    | None => (s, g)
    | Some (s', g') =>
        inv_goroutine_alone s' o (if tested g' then k else S k) fuel g'
    end.
Proof. reflexivity. Qed.

(** A goroutine that nothing interferes with does what [downloadBlocks]
    does. *)
Lemma inv_goroutine_alone_downloadBlocks s o k bis fuel :
  (2 * length bis <= fuel)%nat ->
  inv_goroutine_alone s o k fuel (mk_inv_goroutine bis false)
  = (downloadBlocks s o k bis, mk_inv_goroutine [] false).
Proof.
  revert s k fuel. induction bis as [|bi rest IH]; intros s k fuel Hfuel.
  - by destruct fuel.
  - destruct fuel as [|[|fuel]]; [simpl in Hfuel; lia..|].
    simpl length in Hfuel.
    cbn [downloadBlocks]. rewrite randPeerWrite_two_moves.
    rewrite inv_goroutine_alone_S. cbn [inv_goroutine_step todo tested].
    destruct (randPeerWrite_cacheFull s) eqn:Hfull.
    + cbn [tested]. apply IH. lia.
    + cbn [tested]. rewrite inv_goroutine_alone_S.
      cbn [inv_goroutine_step todo tested].
      destruct (randPeerWrite_loop s (now o k) (range_peers o k)
                  (Hash_String (BlockIdentifier.Hash bi))) as [s' r].
      cbn [fst tested]. apply IH. lia.
Qed.

Lemma blockPeerAdd_peers s now hash p :
  peers (blockPeerAdd s now hash p).1 = peers s.
Proof.
  unfold blockPeerAdd. destruct (peers s !! p); [|done].
  by destruct (blocks s !! hash).
Qed.

Lemma randPeerWrite_range_peers s now hash order :
  peers (randPeerWrite_range s now hash order).1 = peers s.
Proof.
  induction order as [|k rest IH]; simpl; [done|].
  destruct (peers s !! k) as [v|]; [|done].
  destruct (negb (peer.conn v)); [done|].
  destruct (blockPeerAdd s now hash k) as [s' [e|]] eqn:E.
  - apply blockPeerAdd_error in E as ->. done.
  - pose proof (blockPeerAdd_peers s now hash k) as Hp. by rewrite E in Hp.
Qed.

Lemma inv_goroutine_step_peers s now order g s' g' :
  inv_goroutine_step s now order g = Some (s', g') -> peers s' = peers s.
Proof.
  unfold inv_goroutine_step. destruct (todo g) as [|bi rest]; [done|].
  destruct (tested g).
  - intros [= <- _]. unfold randPeerWrite_loop.
    pose proof (randPeerWrite_range_peers s now
                  (Hash_String (BlockIdentifier.Hash bi)) order) as Hp.
    by destruct (randPeerWrite_range _ _ _ _) as [s1 [p|]].
  - by destruct (randPeerWrite_cacheFull s); intros [= <- _].
Qed.

(** What a goroutine does when it is left alone is a run of the
    service. *)
Lemma inv_reachable_alone c i g o fuel k :
  inv_reachable c ->
  goroutines c !! i = Some g ->
  (forall k', range_peers o k' ≡ₚ (map_to_list (peers (srv c))).*1) ->
  inv_reachable
    (mk_running (inv_goroutine_alone (srv c) o k fuel g).1
       (<[i := (inv_goroutine_alone (srv c) o k fuel g).2]> (goroutines c))).
Proof.
  revert c g k. induction fuel as [|fuel IH]; intros c g k Hc Hi Hrange.
  - simpl. rewrite list_insert_id by done. by destruct c.
  - rewrite inv_goroutine_alone_S.
    destruct (inv_goroutine_step _ _ _ g) as [[s' g']|] eqn:Hstep.
    + pose proof (inv_goroutine_step_peers _ _ _ _ _ _ Hstep) as Hpeers.
      pose (c' := mk_running s' (<[i := g']> (goroutines c))).
      assert (inv_reachable c') as Hc'.
      { apply (inv_reachable_step c); [done|].
        by apply (inv_step_goroutine c i g (now o k) (range_peers o k)). }
      assert (goroutines c' !! i = Some g') as Hi'.
      { apply list_lookup_insert_eq. by eapply lookup_lt_Some. }
      specialize (IH c' g' (if tested g' then k else S k) Hc' Hi').
      simpl in IH. rewrite list_insert_insert_eq in IH. apply IH.
      intros k'. by rewrite Hpeers.
    + simpl. rewrite list_insert_id by done. by destruct c.
Qed.

End unlocked_facts.

Section unlocked_race.
#[local] Existing Instance Sample.wire.

Lemma Sample_server_127_size : size (blocks Sample.server_127) = 127%nat.
Proof. vm_compute. reflexivity. Qed.

(** C8, at two [inv] messages that arrive together.  With one connected
    peer and 127 requests pending after an [inv] message of 127 blocks,
    two more [inv] messages of one block each start a goroutine of
    [handleInv] each; both test [len(s.blocks)] before either inserts,
    both find 127, and both insert: the pending-blocks map then holds 129
    entries, one more than [defaultPendingBlocks] allows. *)
Theorem handleInv_race_exceeds_bound :
  inv_reachable Sample.race_end /\
  size (blocks (srv Sample.race_end)) = 129%nat.
Proof.
  split; [|vm_compute; reflexivity].
  pose (g0 := mk_inv_goroutine (handleInv_range (Sample.inv_blocks 0 127) []) false).
  pose (bi1 := BlockIdentifier.mk 0 (Sample.nth_hash 127)).
  pose (bi2 := BlockIdentifier.mk 0 (Sample.nth_hash 128)).
  (* one connected peer *)
  assert (inv_reachable (mk_running Sample.server_a [])) as H0.
  { apply (inv_reachable_step
             (mk_running (peerAdd (NewServer Sample.empty_ldb)
                            (peer.mk "a:8333" false)) [])).
    - apply (inv_reachable_step (mk_running (NewServer Sample.empty_ldb) [])).
      + apply inv_reachable_NewServer.
      + by apply (inv_step_peerAdd (mk_running (NewServer Sample.empty_ldb) [])).
    - apply (inv_step_peerConnected
               (mk_running (peerAdd (NewServer Sample.empty_ldb)
                              (peer.mk "a:8333" false)) []) "a:8333"). }
  (* the first message, on its own *)
  assert (inv_reachable (mk_running Sample.server_127 [Sample.returned])) as H1.
  { pose proof (inv_reachable_alone (mk_running Sample.server_a [g0]) 0 g0
                  Sample.oracle_a 254 0) as Halone.
    unfold g0 in Halone.
    rewrite inv_goroutine_alone_downloadBlocks in Halone
      by (vm_compute; lia).
    apply Halone; [|done|intros k'; vm_compute; reflexivity].
    apply (inv_reachable_step (mk_running Sample.server_a [])); [done|].
    apply (inv_step_handleInv (mk_running Sample.server_a [])
             (Sample.inv_blocks 0 127)).
    vm_compute. lia. }
  (* the two messages that race *)
  assert (inv_reachable
            (mk_running Sample.server_127
               [Sample.returned; mk_inv_goroutine [bi1] false;
                mk_inv_goroutine [bi2] false])) as H2.
  { apply (inv_reachable_step
             (mk_running Sample.server_127
                [Sample.returned; mk_inv_goroutine [bi1] false])).
    - apply (inv_reachable_step (mk_running Sample.server_127 [Sample.returned]));
        [done|].
      apply (inv_step_handleInv (mk_running Sample.server_127 [Sample.returned])
               (Sample.inv_blocks 127 1)).
      simpl. lia.
    - apply (inv_step_handleInv
               (mk_running Sample.server_127
                  [Sample.returned; mk_inv_goroutine [bi1] false])
               (Sample.inv_blocks 128 1)).
      simpl. lia. }
  (* both test before either inserts *)
  assert (inv_reachable
            (mk_running Sample.server_127
               [Sample.returned; mk_inv_goroutine [bi1] true;
                mk_inv_goroutine [bi2] true])) as H3.
  { apply (inv_reachable_step
             (mk_running Sample.server_127
                [Sample.returned; mk_inv_goroutine [bi1] true;
                 mk_inv_goroutine [bi2] false])).
    - apply (inv_reachable_step _ _ H2).
      apply (inv_step_goroutine
               (mk_running Sample.server_127
                  [Sample.returned; mk_inv_goroutine [bi1] false;
                   mk_inv_goroutine [bi2] false])
               1 (mk_inv_goroutine [bi1] false) 0
               Sample.range_a Sample.server_127 (mk_inv_goroutine [bi1] true));
        [done|vm_compute; reflexivity|].
      unfold inv_goroutine_step. cbn [todo tested srv].
      unfold randPeerWrite_cacheFull.
      by rewrite Sample_server_127_size.
    - apply (inv_step_goroutine
               (mk_running Sample.server_127
                  [Sample.returned; mk_inv_goroutine [bi1] true;
                   mk_inv_goroutine [bi2] false])
               2 (mk_inv_goroutine [bi2] false) 0
               Sample.range_a Sample.server_127 (mk_inv_goroutine [bi2] true));
        [done|vm_compute; reflexivity|].
      unfold inv_goroutine_step. cbn [todo tested srv].
      unfold randPeerWrite_cacheFull.
      by rewrite Sample_server_127_size. }
  (* both insert *)
  apply (inv_reachable_step
           (mk_running Sample.server_128
              [Sample.returned; Sample.returned; mk_inv_goroutine [bi2] true])).
  - apply (inv_reachable_step _ _ H3).
    apply (inv_step_goroutine
             (mk_running Sample.server_127
                  [Sample.returned; mk_inv_goroutine [bi1] true;
                   mk_inv_goroutine [bi2] true])
             1 (mk_inv_goroutine [bi1] true) 0
             Sample.range_a Sample.server_128 Sample.returned);
      [done|vm_compute; reflexivity|reflexivity].
  - apply (inv_step_goroutine
             (mk_running Sample.server_128
                  [Sample.returned; Sample.returned;
                   mk_inv_goroutine [bi2] true])
             2 (mk_inv_goroutine [bi2] true) 0
             Sample.range_a Sample.server_129 Sample.returned);
      [done|vm_compute; reflexivity|reflexivity].
Qed.

End unlocked_race.


(** ** The peer store *)

Section peer_store.
Context `{JSON} `{LevelDB}.

(** C9, as the backend has it.  [PeersRandom] succeeds with no peers for
    every count; [PeersInsert] and [PeerDelete] are not implemented: each
    returns an error and leaves the store as it was. *)
Theorem peer_store_unimplemented (l : ldb) :
  (forall count, PeersRandom l count = Ok []) /\
  (forall peers, exists msg, PeersInsert l peers = (l, Err (OtherError msg))) /\
  (forall host port, exists msg, PeerDelete l host port = (l, Err (OtherError msg))).
Proof. repeat split; intros; eexists; reflexivity. Qed.

End peer_store.

(** C9, as stated, fails: inserting one peer into the empty store does not
    succeed. *)
Lemma PeersInsert_does_not_succeed :
  ~ (exists l', PeersInsert Sample.empty_ldb [Sample.peer1] = (l', Ok tt)).
Proof. intros [l' Heq]. discriminate Heq. Qed.

(** * Further properties of the store and the service *)

(** ** Keys, once more *)

Lemma bytes_compare_refl (a : bytes) : bytes_compare a a = Eq.
Proof. induction a as [|x a IH]; simpl; [done|]. by rewrite N.compare_refl. Qed.

Lemma bytes_compare_app (a b r1 r2 : bytes) :
  length a = length b ->
  bytes_compare (a ++ r1) (b ++ r2)
  = match bytes_compare a b with
    | Eq => bytes_compare r1 r2
    | c => c
    end.
Proof.
  revert b. induction a as [|x a IH]; intros [|y b] Hl; try done.
  simpl in *. injection Hl as Hl.
  destruct (Byte.to_N x ?= Byte.to_N y); auto.
Qed.

Lemma be_value_inj (a b : bytes) :
  length a = length b -> be_value a = be_value b -> a = b.
Proof.
  intros Hl Hv. apply bytes_compare_eq.
  rewrite bytes_compare_be_value, Hv by done. apply N.compare_refl.
Qed.

Lemma PutUint64_be_value (l : bytes) :
  length l = 8%nat -> BigEndian.PutUint64 (be_value l) = l.
Proof.
  intros Hl. apply be_value_inj; [by rewrite Hl|].
  rewrite be_value_PutUint64. apply N.mod_small.
  pose proof (be_value_bound l) as Hb. by rewrite Hl in Hb.
Qed.

Lemma heightHashToKey_inv (h : N) (b key : bytes) :
  heightHashToKey h b = Ok key ->
  length b = HashSize /\ key = BigEndian.PutUint64 h ++ x00 :: b.
Proof.
  unfold heightHashToKey. destruct (decide (length b ≠ HashSize)) as [|Hl]; [done|].
  apply dec_stable in Hl. rewrite copy_into_zeroed_exact by done.
  by intros [= <-].
Qed.

Lemma decode_key_heightHashToKey (h : N) (b key : bytes) :
  heightHashToKey h b = Ok key ->
  decode_key key = BlockIdentifier.mk (h mod 2 ^ 64) b.
Proof.
  intros [_ ->]%heightHashToKey_inv. unfold decode_key.
  change (take 8 (BigEndian.PutUint64 h ++ x00 :: b)) with (BigEndian.PutUint64 h).
  change (drop 9 (BigEndian.PutUint64 h ++ x00 :: b)) with b.
  by rewrite be_value_PutUint64.
Qed.

Lemma heightHashToKey_decode_key (key : bytes) :
  length key = 41%nat -> key !! 8%nat = Some x00 ->
  heightHashToKey (BlockIdentifier.Height (decode_key key))
                  (BlockIdentifier.Hash (decode_key key)) = Ok key.
Proof.
  intros Hl H8. unfold decode_key. cbn [BlockIdentifier.Height BlockIdentifier.Hash].
  rewrite heightHashToKey_Ok by (rewrite length_drop, Hl; done).
  rewrite PutUint64_be_value by (rewrite length_take; lia).
  f_equal. rewrite <- (take_drop 8 key) at 3. f_equal.
  by rewrite (drop_S key x00 8).
Qed.

Lemma heightHashToKey_produced (h : N) (b key : bytes) :
  heightHashToKey h b = Ok key -> length key = 41%nat /\ key !! 8%nat = Some x00.
Proof.
  intros Hk. split; [by eapply heightHashToKey_length|].
  by apply heightHashToKey_inv in Hk as [_ ->].
Qed.

(** X1. [heightHashToKey] is injective on uint64 heights: two calls that
    give the same key were given the same height and the same hash. *)
Theorem heightHashToKey_injective (h1 h2 : N) (b1 b2 key : bytes) :
  h1 < 2 ^ 64 -> h2 < 2 ^ 64 ->
  heightHashToKey h1 b1 = Ok key ->
  heightHashToKey h2 b2 = Ok key ->
  h1 = h2 /\ b1 = b2.
Proof.
  intros H1 H2 Hk1 Hk2.
  apply decode_key_heightHashToKey in Hk1, Hk2. rewrite Hk1 in Hk2.
  injection Hk2 as Hh Hb. by rewrite !N.mod_small in Hh.
Qed.

Lemma heightHashToKey_injective_witness :
  heightHashToKey 7 (Sample.hash_of x07)
  = Ok (BigEndian.PutUint64 7 ++ x00 :: Sample.hash_of x07)
  /\ (7 = 7 /\ Sample.hash_of x07 = Sample.hash_of x07).
Proof.
  split; [reflexivity|].
  exact (heightHashToKey_injective 7 7 (Sample.hash_of x07) (Sample.hash_of x07)
           (BigEndian.PutUint64 7 ++ x00 :: Sample.hash_of x07)
           eq_refl eq_refl eq_refl eq_refl).
Defined.

(** X2. The keys sort by height first and by hash second: under
    [bytes.Compare], two keys of uint64 heights compare as their heights
    do, and when the heights are equal as their hashes do. *)
Theorem heightHashToKey_order (h1 h2 : N) (b1 b2 k1 k2 : bytes) :
  h1 < 2 ^ 64 -> h2 < 2 ^ 64 ->
  heightHashToKey h1 b1 = Ok k1 ->
  heightHashToKey h2 b2 = Ok k2 ->
  bytes_compare k1 k2
  = match h1 ?= h2 with
    | Eq => bytes_compare b1 b2
    | c => c
    end.
Proof.
  intros H1 H2 [_ ->]%heightHashToKey_inv [_ ->]%heightHashToKey_inv.
  rewrite (bytes_compare_app (BigEndian.PutUint64 h1) (BigEndian.PutUint64 h2))
    by done.
  rewrite bytes_compare_be_value by done.
  rewrite !be_value_PutUint64, !N.mod_small by done.
  destruct (h1 ?= h2); [|done|done].
  cbn [bytes_compare]. by rewrite N.compare_refl.
Qed.

Lemma heightHashToKey_order_witness :
  bytes_compare (BigEndian.PutUint64 5 ++ x00 :: Sample.hash_of x01)
                (BigEndian.PutUint64 5 ++ x00 :: Sample.hash_of x02)
  = bytes_compare (Sample.hash_of x01) (Sample.hash_of x02).
Proof.
  apply (heightHashToKey_order 5 5 (Sample.hash_of x01) (Sample.hash_of x02));
    reflexivity.
Defined.

(** X3. [keyToHeightHash] returns exactly on keys of 41 bytes and panics
    on every other; on a 41-byte key whose byte 8 is zero its result is a
    uint64 height and a 32-byte hash that [heightHashToKey] maps back to
    the key. *)
Theorem keyToHeightHash_total_on_sized (key : bytes) :
  (length key ≠ 41%nat -> exists m, keyToHeightHash key = Panic m) /\
  (length key = 41%nat ->
   exists h b,
     keyToHeightHash key = Ok (h, b) /\ h < 2 ^ 64 /\ length b = HashSize /\
     (key !! 8%nat = Some x00 -> heightHashToKey h b = Ok key)).
Proof.
  split.
  - intros Hl. unfold keyToHeightHash.
    destruct (decide (length key ≠ (8 + 1 + HashSize)%nat)) as [|Hn]; [eauto|].
    by destruct Hn.
  - intros Hl. eexists _, _. split; [by apply keyToHeightHash_Ok|].
    split.
    { unfold decode_key. cbn [BlockIdentifier.Height].
      pose proof (be_value_bound (take 8 key)) as Hb.
      rewrite length_take, Hl in Hb. exact Hb. }
    split.
    { unfold decode_key. cbn [BlockIdentifier.Hash]. by rewrite length_drop, Hl. }
    intros H8. by apply heightHashToKey_decode_key.
Qed.

Lemma keyToHeightHash_total_on_sized_witness :
  (exists m, keyToHeightHash [x01; x02] = Panic m) /\
  (exists h b,
      keyToHeightHash (BigEndian.PutUint64 9 ++ x00 :: Sample.hash_of x09) = Ok (h, b) /\
      heightHashToKey h b = Ok (BigEndian.PutUint64 9 ++ x00 :: Sample.hash_of x09)).
Proof.
  split.
  - apply (proj1 (keyToHeightHash_total_on_sized [x01; x02])). discriminate.
  - destruct (proj2 (keyToHeightHash_total_on_sized
                       (BigEndian.PutUint64 9 ++ x00 :: Sample.hash_of x09))
                eq_refl) as (h & b & Hk & _ & _ & Hback).
    exists h, b. split; [exact Hk|]. apply Hback. reflexivity.
Defined.

(** ** The queue of missing blocks *)

Lemma NewIterator_length (m : namespace) : length (NewIterator m) = size m.
Proof.
  unfold NewIterator. rewrite merge_sort_Permutation. apply length_map_to_list.
Qed.

Lemma NewIterator_NoDup (m : namespace) : NoDup (NewIterator m).*1.
Proof.
  unfold NewIterator. rewrite merge_sort_Permutation. apply NoDup_fst_map_to_list.
Qed.

Lemma produced_sized (m : namespace) :
  (forall key, is_Some (m !! key) -> exists h b, heightHashToKey h b = Ok key) ->
  missing_keys_sized m.
Proof.
  intros Hm key Hkey. destruct (Hm key Hkey) as (h & b & Hk).
  by eapply heightHashToKey_length.
Qed.

Lemma decode_key_produced (m : namespace) (kv : bytes * bytes) :
  (forall key, is_Some (m !! key) -> exists h b, heightHashToKey h b = Ok key) ->
  kv ∈ NewIterator m ->
  heightHashToKey (BlockIdentifier.Height (decode_key kv.1))
                  (BlockIdentifier.Hash (decode_key kv.1)) = Ok kv.1
  /\ is_Some (m !! kv.1).
Proof.
  intros Hm Hkv. apply NewIterator_elem_of in Hkv.
  assert (is_Some (m !! kv.1)) as Hsome by (by rewrite Hkv).
  split; [|done]. destruct (Hm _ Hsome) as (h & b & Hk).
  apply heightHashToKey_produced in Hk as [Hl H8].
  by apply heightHashToKey_decode_key.
Qed.

Lemma decoded_NoDup (m : namespace) :
  (forall key, is_Some (m !! key) -> exists h b, heightHashToKey h b = Ok key) ->
  NoDup ((fun kv : bytes * bytes => decode_key kv.1) <$> NewIterator m).
Proof.
  intros Hm.
  replace ((fun kv : bytes * bytes => decode_key kv.1) <$> NewIterator m)
    with (decode_key <$> (NewIterator m).*1) by (by rewrite <- list_fmap_compose).
  apply NoDup_fmap_2_strong; [|apply NewIterator_NoDup].
  intros k1 k2 (kv1 & -> & Hin1)%list_elem_of_fmap
               (kv2 & -> & Hin2)%list_elem_of_fmap Heq.
  destruct (decode_key_produced m kv1 Hm Hin1) as [H1 _].
  destruct (decode_key_produced m kv2 Hm Hin2) as [H2 _].
  rewrite Heq in H1. rewrite H1 in H2. by injection H2.
Qed.

(** X4. On a namespace whose keys [heightHashToKey] produced, a call of
    [BlocksMissing] with a limit of one or more returns as many
    identifiers as the limit allows and the namespace holds, no
    identifier twice, and each of them the height and hash of a key of
    the namespace. *)
Theorem BlocksMissing_first_entries (l : ldb) (count : Z) :
  (1 <= count)%Z ->
  (forall key, is_Some (BlocksMissingDB l !! key) ->
               exists h b, heightHashToKey h b = Ok key) ->
  exists bis,
    BlocksMissing l count = Ok bis /\
    length bis = (Z.to_nat count `min` size (BlocksMissingDB l))%nat /\
    NoDup bis /\
    (forall bi, bi ∈ bis ->
       exists key,
         heightHashToKey (BlockIdentifier.Height bi) (BlockIdentifier.Hash bi)
         = Ok key /\
         is_Some (BlocksMissingDB l !! key)).
Proof.
  intros Hc Hm. eexists.
  split; [apply BlocksMissing_positive; [done|by apply produced_sized]|].
  split; [by rewrite length_take, length_fmap, NewIterator_length|].
  split.
  { eapply sublist_NoDup; [by apply decoded_NoDup|apply sublist_take]. }
  intros bi Hin. apply subseteq_take in Hin.
  apply list_elem_of_fmap in Hin as (kv & -> & Hin).
  exists kv.1. by apply decode_key_produced.
Qed.

Lemma BlocksMissing_first_entries_witness :
  exists bis,
    BlocksMissing Sample.ldb2 1%Z = Ok bis /\ length bis = 1%nat.
Proof.
  destruct (BlocksMissing_first_entries Sample.ldb2 1%Z) as (bis & Hb & Hl & _).
  - lia.
  - intros key. rewrite Sample_ldb2_missing.
    rewrite !lookup_insert_is_Some, lookup_empty.
    intros [<-|[_ [<-|[_ []%is_Some_None]]]].
    + exists 2, (Sample.hash_of x02). reflexivity.
    + exists 1, (Sample.hash_of x01). reflexivity.
  - exists bis. split; [exact Hb|]. rewrite Hl. vm_compute. reflexivity.
Defined.

(** ** Batches, once more *)

Lemma tx_Write_preserves (b : Batch) (m : namespace) (k : bytes) :
  is_Some (m !! k) -> is_Some (tx_Write b m !! k).
Proof.
  intros Hk. rewrite tx_Write_lookup. by destruct (last _) as [kv|]; eauto.
Qed.

Lemma tx_Write_is_Some_inv (b : Batch) (m : namespace) (k : bytes) :
  is_Some (tx_Write b m !! k) -> is_Some (m !! k) \/ k ∈ b.*1.
Proof.
  intros Hk. destruct (decide (k ∈ b.*1)) as [|Hn]; [by right|].
  left. by rewrite tx_Write_lookup_notin in Hk.
Qed.

Lemma tx_Write_size (b : Batch) (m : namespace) :
  (size (tx_Write b m) <= size m + length b)%nat.
Proof.
  induction b as [|kv b IH] using rev_ind; [simpl; lia|].
  rewrite tx_Write_snoc, length_app. simpl.
  pose proof (map_size_insert kv.1 kv.2 (tx_Write b m)) as Hs.
  destruct (tx_Write b m !! kv.1); simpl in Hs; lia.
Qed.

Lemma BlocksMissing_all (l : ldb) (count : Z) :
  (0 <= count)%Z ->
  (Z.of_nat (size (BlocksMissingDB l)) <= count)%Z ->
  missing_keys_sized (BlocksMissingDB l) ->
  BlocksMissing l count
  = Ok ((fun kv => decode_key kv.1) <$> NewIterator (BlocksMissingDB l)).
Proof.
  intros Hc Hs Hm. rewrite BlocksMissing_spec by done.
  rewrite take_ge; [done|]. rewrite length_fmap, NewIterator_length. lia.
Qed.

Section store_facts.
Context `{JSON} `{LevelDB}.

Lemma missing_puts_length bhs : (length (missing_puts bhs) <= length bhs)%nat.
Proof.
  unfold missing_puts. rewrite length_fmap. apply length_filter.
Qed.

Lemma decode_missing_key bh :
  well_formed bh ->
  decode_key (missing_key bh)
  = BlockIdentifier.mk (BlockHeader.Height bh) (BlockHeader.Hash bh).
Proof.
  intros [Hl Hh].
  rewrite (decode_key_heightHashToKey (BlockHeader.Height bh) (BlockHeader.Hash bh))
    by by apply heightHashToKey_Ok.
  by rewrite N.mod_small.
Qed.

(** X5. Headers that have been inserted are queued for download: after a
    successful [BlockHeadersInsert] on a store whose missing-block keys
    are well formed, a [BlocksMissing] with room for the whole namespace
    returns the height and hash of every entry of the batch above
    height 0. *)
Theorem BlockHeadersInsert_then_BlocksMissing l clock first rest count :
  let bhs := first :: rest in
  BlockHeadersDB l !! BlockHeader.Hash first = None ->
  Forall well_formed bhs ->
  Forall (fun bh => is_Some (marshalBlockHeader bh)) (stamp clock 0 bhs) ->
  (forall key, is_Some (BlocksMissingDB l !! key) ->
               exists h b, heightHashToKey h b = Ok key) ->
  (Z.of_nat (size (BlocksMissingDB l) + length bhs) <= count)%Z ->
  exists l' bis,
    BlockHeadersInsert l clock bhs = (l', stamp clock 0 bhs, Ok tt) /\
    BlocksMissing l' count = Ok bis /\
    (forall bh, bh ∈ bhs -> BlockHeader.Height bh ≠ 0 ->
       BlockIdentifier.mk (BlockHeader.Height bh) (BlockHeader.Hash bh) ∈ bis).
Proof.
  intros bhs Hnone Hwf Hm Hold Hcount.
  eexists _, _. split; [by apply BlockHeadersInsert_Ok|]. fold bhs.
  assert (missing_keys_sized (tx_Write (missing_puts bhs) (BlocksMissingDB l)))
    as Hsized.
  { intros key [Hk|Hk]%tx_Write_is_Some_inv.
    - by apply (produced_sized _ Hold).
    - apply list_elem_of_fmap in Hk as ([k v] & -> & Hkv).
      apply missing_puts_elem_of in Hkv as (_ & bh & Hin & _ & ->).
      rewrite Forall_forall in Hwf. destruct (Hwf bh Hin) as [Hl _].
      unfold missing_key. simpl. by rewrite Hl. }
  split.
  { apply BlocksMissing_all; cbn [BlocksMissingDB]; [lia| |done].
    pose proof (tx_Write_size (missing_puts bhs) (BlocksMissingDB l)).
    pose proof (missing_puts_length bhs). unfold bhs in *. lia. }
  intros bh Hin Hh. cbn [BlocksMissingDB].
  rewrite Forall_forall in Hwf.
  rewrite <- (decode_missing_key bh) by by apply Hwf.
  apply list_elem_of_fmap. exists (missing_key bh, []). split; [done|].
  apply NewIterator_elem_of. simpl.
  assert (missing_key bh ∈ (missing_puts bhs).*1) as Hmk.
  { apply list_elem_of_fmap. exists (missing_key bh, []). split; [done|].
    apply missing_puts_elem_of. eauto. }
  destruct (tx_Write_lookup_in _ (BlocksMissingDB l) _ Hmk) as (v & Hv & ->).
  by apply missing_puts_elem_of in Hv as [-> _].
Qed.

(** X6. A block that has been inserted is no longer queued: after a
    successful [BlockInsert] for a block whose header record is stored,
    no [BlocksMissing] returns the height and hash of that block, and
    whatever it returns was a key of the namespace before. *)
Theorem BlockInsert_then_BlocksMissing l b bhj bh bj count :
  BlockHeadersDB l !! Block.Hash b = Some bhj ->
  unmarshalBlockHeader bhj = Some bh ->
  BlockHeader.Hash bh = Block.Hash b ->
  well_formed bh ->
  marshalBlock b = Some bj ->
  (forall key, is_Some (BlocksMissingDB l !! key) ->
               exists h b, heightHashToKey h b = Ok key) ->
  (0 <= count)%Z ->
  exists l' logged h bis,
    BlockInsert l b = (l', logged, Ok h) /\
    BlocksMissing l' count = Ok bis /\
    ¬ (BlockIdentifier.mk (BlockHeader.Height bh) (Block.Hash b) ∈ bis) /\
    (forall bi, bi ∈ bis ->
       exists key,
         heightHashToKey (BlockIdentifier.Height bi) (BlockIdentifier.Hash bi)
         = Ok key /\
         is_Some (BlocksMissingDB l !! key)).
Proof.
  intros Hget Hun Hhash [Hlen Hh] Hbj Hold Hc.
  unfold BlockInsert. rewrite Hget, Hun, heightHashToKey_Ok by done.
  unfold tx_Delete. rewrite Hbj.
  set (key := BigEndian.PutUint64 (BlockHeader.Height bh) ++ x00 :: BlockHeader.Hash bh).
  assert (forall k, is_Some (delete key (BlocksMissingDB l) !! k) ->
                    exists h b, heightHashToKey h b = Ok k) as Hnew.
  { intros k Hk. apply Hold. rewrite lookup_delete in Hk.
    by destruct (decide (key = k)); [destruct Hk|]. }
  eexists _, _, _, _. split; [reflexivity|]. cbn [BlocksMissingDB].
  split; [apply BlocksMissing_spec; [done|by apply produced_sized]|].
  split.
  - intros Hin%subseteq_take.
    apply list_elem_of_fmap in Hin as (kv & Heq & Hin).
    destruct (decode_key_produced _ kv Hnew Hin) as [Hk Hsome].
    rewrite <- Heq in Hk. cbn [BlockIdentifier.Height BlockIdentifier.Hash] in Hk.
    rewrite <- Hhash, heightHashToKey_Ok in Hk by done.
    injection Hk as Hk. fold key in Hk. rewrite <- Hk, lookup_delete_eq in Hsome.
    by destruct Hsome.
  - intros bi Hin%subseteq_take.
    apply list_elem_of_fmap in Hin as (kv & -> & Hin).
    destruct (decode_key_produced _ kv Hnew Hin) as [Hk Hsome].
    exists kv.1. split; [done|].
    rewrite lookup_delete in Hsome.
    by destruct (decide (key = kv.1)); [destruct Hsome|].
Qed.

End store_facts.

Section store_samples.
#[local] Existing Instances Sample.json Sample.quiet_delete.

Lemma Sample_ldb0_missing : BlocksMissingDB Sample.ldb0 = ∅.
Proof. vm_compute. reflexivity. Qed.

Lemma Sample_ldb2_produced key :
  is_Some (BlocksMissingDB Sample.ldb2 !! key) ->
  exists h b, heightHashToKey h b = Ok key.
Proof.
  rewrite Sample_ldb2_missing.
  rewrite !lookup_insert_is_Some, lookup_empty.
  intros [<-|[_ [<-|[_ []%is_Some_None]]]].
  - exists 2, (Sample.hash_of x02). reflexivity.
  - exists 1, (Sample.hash_of x01). reflexivity.
Qed.

Lemma BlockHeadersInsert_then_BlocksMissing_witness :
  exists l' bis,
    BlockHeadersInsert Sample.ldb0 Sample.clock Sample.batch12
    = (l', stamp Sample.clock 0 Sample.batch12, Ok tt) /\
    BlocksMissing l' 5%Z = Ok bis /\
    BlockIdentifier.mk 1 (Sample.hash_of x01) ∈ bis.
Proof.
  destruct (BlockHeadersInsert_then_BlocksMissing Sample.ldb0 Sample.clock
              (Sample.header x01 1) [Sample.header x02 2] 5%Z)
    as (l' & bis & Hins & Hbm & Hin).
  - vm_compute. reflexivity.
  - repeat constructor.
  - repeat constructor; vm_compute; eauto.
  - intros key. rewrite Sample_ldb0_missing, lookup_empty. by intros []%is_Some_None.
  - rewrite Sample_ldb0_missing. vm_compute. discriminate.
  - exists l', bis. split; [exact Hins|]. split; [exact Hbm|].
    apply (Hin (Sample.header x01 1)); [set_solver|done].
Defined.

Lemma BlockInsert_then_BlocksMissing_witness :
  exists l' logged h bis,
    BlockInsert Sample.ldb2 Sample.block1 = (l', logged, Ok h) /\
    BlocksMissing l' 5%Z = Ok bis /\
    ¬ (BlockIdentifier.mk 1 (Sample.hash_of x01) ∈ bis).
Proof.
  pose (bh := BlockHeader.with_CreatedAt (Sample.clock 0) (Sample.header x01 1)).
  destruct (BlockInsert_then_BlocksMissing Sample.ldb2 Sample.block1
              (default [] (Sample.marshal_header bh)) bh
              (Sample.hash_of x01 ++ [xaa; xbb]) 5%Z)
    as (l' & logged & h & bis & Hins & Hbm & Hnot & _).
  - vm_compute. reflexivity.
  - vm_compute. reflexivity.
  - reflexivity.
  - split; reflexivity.
  - reflexivity.
  - apply Sample_ldb2_produced.
  - lia.
  - exists l', logged, h, bis. split; [exact Hins|]. split; [exact Hbm|exact Hnot].
Defined.

End store_samples.

(** ** Failures and frames of the two inserts *)

Section insert_frames.
Context `{JSON} `{LevelDB}.

Lemma BlockHeadersInsert_loop_error clock k bhs acc bhs' e :
  BlockHeadersInsert_loop clock k bhs acc = (bhs', Err e) ->
  exists msg, e = OtherError msg.
Proof.
  revert k acc bhs'. induction bhs as [|bh bhs IH]; intros k acc bhs'; [done|].
  cbn [BlockHeadersInsert_loop]. unfold heightHashToKey.
  destruct (decide (BlockHeader.Height bh ≠ 0));
    [destruct (decide (length (BlockHeader.Hash bh) ≠ HashSize))|];
    cbn [mbind result_bind mret result_ret]; try done;
    (destruct (marshalBlockHeader _); [|intros [= _ <-]; eauto]);
    destruct (BlockHeadersInsert_loop _ _ _ _) as [rest' r] eqn:Hloop;
    intros [= _ ->]; eauto.
Qed.


(** X8. For a non-empty batch, [BlockHeadersInsert] returns Duplicate
    exactly when the hash of the first entry is stored; the other entries
    are not looked at for that. *)
Theorem BlockHeadersInsert_Duplicate_iff l clock first rest :
  (exists msg, (BlockHeadersInsert l clock (first :: rest)).2
               = Err (DuplicateError msg))
  <-> is_Some (BlockHeadersDB l !! BlockHeader.Hash first).
Proof.
  unfold BlockHeadersInsert.
  destruct (decide (is_Some (BlockHeadersDB l !! BlockHeader.Hash first)))
    as [Hs|Hn].
  - split; [done|]. intros _. simpl. eauto.
  - split; [|done]. intros [msg Hmsg].
    destruct (BlockHeadersInsert_loop _ _ _ _) as [bhs' [acc|e|]] eqn:Hloop;
      simpl in Hmsg; [done| |done].
    apply BlockHeadersInsert_loop_error in Hloop as [msg' ->]. done.
Qed.

(** X9. [BlockHeadersInsert] removes nothing and stays out of Blocks:
    whatever it is given, every key of BlockHeaders and of BlocksMissing
    that was there before the call is there after it, and the Blocks
    namespace is the same. *)
Theorem BlockHeadersInsert_never_deletes l clock bhs :
  let l' := (BlockHeadersInsert l clock bhs).1.1 in
  (forall key, is_Some (BlockHeadersDB l !! key) ->
               is_Some (BlockHeadersDB l' !! key)) /\
  (forall key, is_Some (BlocksMissingDB l !! key) ->
               is_Some (BlocksMissingDB l' !! key)) /\
  BlocksDB l' = BlocksDB l.
Proof.
  unfold BlockHeadersInsert. destruct bhs as [|first rest]; [done|].
  destruct (decide (is_Some _)); [done|].
  destruct (BlockHeadersInsert_loop _ _ _ _) as [bhs' [acc| |]]; [|done|done].
  simpl. split; [|split; [|done]]; intros key Hkey; by apply tx_Write_preserves.
Qed.

(** X10. [BlockInsert] keeps to its block: whatever it returns, the
    BlockHeaders namespace is the same after the call, so the best tip and
    every header lookup answer as before; BlocksMissing has lost at most
    one key and gained none; and no key of Blocks but the block's own
    hash has changed. *)
Theorem BlockInsert_frame l b :
  let l' := (BlockInsert l b).1.1 in
  BlockHeadersDB l' = BlockHeadersDB l /\
  BlockHeadersBest l' = BlockHeadersBest l /\
  (forall hash, BlockHeaderByHash l' hash = BlockHeaderByHash l hash) /\
  BlocksMissingDB l' ⊆ BlocksMissingDB l /\
  (size (BlocksMissingDB l) <= S (size (BlocksMissingDB l')))%nat /\
  (forall hash, hash ≠ Block.Hash b ->
                BlocksDB l' !! hash = BlocksDB l !! hash).
Proof.
  intros l'.
  assert (BlockHeadersDB l' = BlockHeadersDB l /\
          (BlocksMissingDB l' = BlocksMissingDB l \/
           exists key, BlocksMissingDB l' = delete key (BlocksMissingDB l)) /\
          (forall hash, hash ≠ Block.Hash b ->
                        BlocksDB l' !! hash = BlocksDB l !! hash))
    as (Hh & Hm & Hb).
  { unfold l', BlockInsert.
    destruct (BlockHeadersDB l !! Block.Hash b); [|by eauto].
    destruct (unmarshalBlockHeader _); [|by eauto].
    destruct (heightHashToKey _ _) as [key| |]; [|by eauto|by eauto].
    unfold tx_Delete. destruct (marshalBlock b); [|by eauto].
    simpl. split; [done|]. split; [by eauto|].
    intros hash Hne. by rewrite lookup_insert_ne. }
  split; [done|].
  split; [unfold BlockHeadersBest; by rewrite Hh|].
  split; [intros hash; unfold BlockHeaderByHash; by rewrite Hh|].
  split; [destruct Hm as [->|[key ->]]; [done|apply delete_subseteq]|].
  split; [|done].
  destruct Hm as [->|[key ->]]; [lia|].
  pose proof (map_size_delete key (BlocksMissingDB l)) as Hs.
  destruct (BlocksMissingDB l !! key); simpl in Hs; lia.
Qed.

(** X11. Inserting a block a second time is harmless: when [BlockInsert]
    has returned a height, the same call on the resulting store returns
    the same height and leaves that store as it is. *)
Theorem BlockInsert_twice l b l1 logged h :
  BlockInsert l b = (l1, logged, Ok h) ->
  exists logged', BlockInsert l1 b = (l1, logged', Ok h).
Proof.
  unfold BlockInsert.
  destruct (BlockHeadersDB l !! Block.Hash b) as [bhj|] eqn:Hget; [|done].
  destruct (unmarshalBlockHeader bhj) as [bh|] eqn:Hun; [|done].
  destruct (heightHashToKey _ _) as [key| |] eqn:Hkey; [|done|done].
  unfold tx_Delete. destruct (marshalBlock b) as [bj|] eqn:Hbj; [|done].
  intros [= <- _ <-]. cbn [BlockHeadersDB BlocksMissingDB BlocksDB].
  rewrite Hget, Hun, Hkey. eexists. f_equal. f_equal.
  by rewrite delete_delete_eq, insert_insert_eq.
Qed.

End insert_frames.

Section insert_frames_samples.
#[local] Existing Instances Sample.json Sample.quiet_delete.


Lemma BlockInsert_twice_witness :
  exists l1 logged',
    (BlockInsert Sample.ldb2 Sample.block1).1.1 = l1 /\
    BlockInsert l1 Sample.block1 = (l1, logged', Ok 1%Z).
Proof.
  destruct (BlockInsert Sample.ldb2 Sample.block1) as [[l1 logged] r] eqn:E.
  assert (r = Ok 1%Z) as ->.
  { apply (f_equal snd) in E. vm_compute in E. by symmetry. }
  destruct (BlockInsert_twice Sample.ldb2 Sample.block1 l1 logged 1%Z E)
    as [logged' Htwice].
  by exists l1, logged'.
Defined.

End insert_frames_samples.

(** ** The pending-blocks cache, call by call *)

Lemma blockPeerAdd_Ok s now hash p s' :
  blockPeerAdd s now hash p = (s', None) ->
  is_Some (peers s !! p) /\ blocks s !! hash = None /\
  s' = set_blocks (insert hash (blockPeer.mk (now + 37 * Second) p)) s.
Proof.
  unfold blockPeerAdd. destruct (peers s !! p) as [v|]; [|done].
  destruct (blocks s !! hash); [done|]. intros [= <-]. eauto.
Qed.

Lemma randPeerWrite_range_None s now hash order s' :
  randPeerWrite_range s now hash order = (s', None) -> s' = s.
Proof.
  induction order as [|k rest IH]; simpl; [by intros [= <-]|].
  destruct (peers s !! k) as [v|]; [|done].
  destruct (negb (peer.conn v)); [done|].
  destruct (blockPeerAdd s now hash k) as [s1 [e|]] eqn:E; [|done].
  apply blockPeerAdd_error in E as ->. done.
Qed.

Lemma randPeerWrite_range_Some s now hash order s' p :
  randPeerWrite_range s now hash order = (s', Some p) ->
  p ∈ order /\
  (exists v, peers s !! p = Some v /\ peer.conn v = true) /\
  blocks s !! hash = None /\
  s' = set_blocks (insert hash (blockPeer.mk (now + 37 * Second) p)) s.
Proof.
  induction order as [|k rest IH]; simpl; [done|].
  destruct (peers s !! k) as [v|] eqn:Hk.
  - destruct (peer.conn v) eqn:Hconn; simpl.
    + destruct (blockPeerAdd s now hash k) as [s1 [e|]] eqn:E.
      * apply blockPeerAdd_error in E as ->. intros Hr.
        destruct (IH Hr) as (Hin & Hrest). split; [by apply elem_of_cons; right|done].
      * intros [= <- <-]. apply blockPeerAdd_Ok in E as (_ & Hnone & ->).
        split; [by apply elem_of_cons; left|]. eauto.
    + intros Hr. destruct (IH Hr) as (Hin & Hrest).
      split; [by apply elem_of_cons; right|done].
  - intros Hr. destruct (IH Hr) as (Hin & Hrest).
    split; [by apply elem_of_cons; right|done].
Qed.

Lemma randPeerWrite_range_pending s now hash order :
  is_Some (blocks s !! hash) ->
  randPeerWrite_range s now hash order = (s, None).
Proof.
  intros [bp Hbp]. induction order as [|k rest IH]; simpl; [done|].
  destruct (peers s !! k) as [v|] eqn:Hk; [|done].
  destruct (negb (peer.conn v)); [done|].
  unfold blockPeerAdd. by rewrite Hk, Hbp.
Qed.

Lemma randPeerWrite_range_unconnected s now hash order :
  (forall k v, k ∈ order -> peers s !! k = Some v -> peer.conn v = false) ->
  randPeerWrite_range s now hash order = (s, None).
Proof.
  induction order as [|k rest IH]; intros Hconn; simpl; [done|].
  assert (randPeerWrite_range s now hash rest = (s, None)) as Hrest.
  { apply IH. intros k' v Hin. apply Hconn. by apply elem_of_cons; right. }
  destruct (peers s !! k) as [v|] eqn:Hk; [|done].
  rewrite (Hconn k v); [done| |done]. apply elem_of_cons. by left.
Qed.


(** X13. A block that is being downloaded is not asked for again, and
    nothing is asked of peers without a connection: when the hash is
    already pending, or no peer of the range has a connection,
    [randPeerWrite] returns [errCacheFull] or [errNoPeers] and changes
    nothing, so the pending entry keeps its peer and its expiry. *)
Theorem randPeerWrite_refuses s now order hash :
  is_Some (blocks s !! hash)
  \/ (forall k v, k ∈ order -> peers s !! k = Some v -> peer.conn v = false) ->
  randPeerWrite s now order hash = (s, rpw_error errCacheFull)
  \/ randPeerWrite s now order hash = (s, rpw_error errNoPeers).
Proof.
  intros Hcase. unfold randPeerWrite. case_decide; [by left|]. right.
  destruct Hcase as [Hp|Hc].
  - by rewrite randPeerWrite_range_pending.
  - by rewrite randPeerWrite_range_unconnected.
Qed.

(** X14. [blockPeerExpire] removes exactly the entries whose expiry lies
    before the clock reading and keeps every other entry as it is; it
    returns the number of entries left, leaves the peer map and the store
    alone, and a second sweep at the same reading changes nothing. *)
Theorem blockPeerExpire_sweep s now :
  let s' := (blockPeerExpire s now).1 in
  (forall hash,
      blocks s' !! hash
      = match blocks s !! hash with
        | Some bp => if decide (blockPeer.expire bp < now)%Z then None else Some bp
        | None => None
        end) /\
  (blockPeerExpire s now).2 = size (blocks s') /\
  peers s' = peers s /\ db s' = db s /\
  blockPeerExpire s' now = (s', size (blocks s')).
Proof.
  intros s'. unfold s', blockPeerExpire. simpl.
  split; [|split; [done|split; [done|split; [done|]]]].
  - intros hash. rewrite map_lookup_filter.
    destruct (blocks s !! hash) as [bp|]; [|done]. simpl.
    destruct (decide (blockPeer.expire bp < now)%Z).
    + by rewrite option_guard_False by (intros Hn; by apply Hn).
    + by rewrite option_guard_True.
  - unfold set_blocks. simpl. rewrite map_filter_id; [done|].
    intros hash bp Hbp. by apply map_lookup_filter_Some in Hbp as [_ Hbp].
Qed.

(** X15. A request lives 37 seconds: the entry that a successful
    [randPeerWrite] made at clock reading [now] survives every sweep of
    [blockPeerExpire] up to and including [now + 37s], and is removed by
    any later sweep. *)
Theorem request_expires_after_37s s now order hash s' p t :
  randPeerWrite s now order hash = (s', rpw_write p) ->
  blocks (blockPeerExpire s' t).1 !! hash
  = if decide (now + 37000000000 < t)%Z then None
    else Some (blockPeer.mk (now + 37000000000) p).
Proof.
  intros Hw.
  assert (s' = set_blocks (insert hash (blockPeer.mk (now + 37 * Second) p)) s)
    as ->.
  { unfold randPeerWrite in Hw. case_decide; [done|].
    destruct (randPeerWrite_range s now hash order) as [s1 [p'|]] eqn:E; [|done].
    injection Hw as <- <-. by apply randPeerWrite_range_Some in E as (_&_&_&->). }
  unfold blockPeerExpire. simpl. rewrite map_lookup_filter, lookup_insert_eq. simpl.
  change (37 * Second)%Z with 37000000000%Z.
  destruct (decide (now + 37000000000 < t)%Z).
  - by rewrite option_guard_False by (intros Hn; by apply Hn).
  - by rewrite option_guard_True.
Qed.

Section cache_call_samples.


Lemma randPeerWrite_refuses_witness :
  let s := (randPeerWrite Sample.server_a 5 Sample.range_a "00ff").1 in
  randPeerWrite s 9 Sample.range_a "00ff" = (s, rpw_error errCacheFull)
  \/ randPeerWrite s 9 Sample.range_a "00ff" = (s, rpw_error errNoPeers).
Proof.
  intros s. apply (randPeerWrite_refuses s 9 Sample.range_a "00ff").
  left. vm_compute. eauto.
Defined.

Lemma request_expires_after_37s_witness :
  blocks (blockPeerExpire
            (randPeerWrite Sample.server_a 5 Sample.range_a "00ff").1
            37000000006).1 !! "00ff" = None
  /\ blocks (blockPeerExpire
               (randPeerWrite Sample.server_a 5 Sample.range_a "00ff").1
               37000000005).1 !! "00ff"
     = Some (blockPeer.mk 37000000005 "a:8333").
Proof.
  destruct (randPeerWrite Sample.server_a 5 Sample.range_a "00ff")
    as [s' r] eqn:E.
  assert (r = rpw_write "a:8333") as ->.
  { apply (f_equal snd) in E. vm_compute in E. by symmetry. }
  cbn [fst].
  rewrite !(request_expires_after_37s Sample.server_a 5 Sample.range_a "00ff"
              s' "a:8333" _ E).
  split; reflexivity.
Defined.

End cache_call_samples.

(** ** The handlers and the store *)

Section handler_frames.
Context `{JSON} `{LevelDB} `{Wire}.

Lemma randPeerWrite_frame s now order hash :
  peers (randPeerWrite s now order hash).1 = peers s /\
  db (randPeerWrite s now order hash).1 = db s.
Proof.
  unfold randPeerWrite. case_decide; [done|].
  destruct (randPeerWrite_range s now hash order) as [s' [p|]] eqn:E; simpl.
  - by apply randPeerWrite_range_Some in E as (_ & _ & _ & ->).
  - by apply randPeerWrite_range_None in E as ->.
Qed.

Lemma downloadBlocks_frame s o k bis :
  peers (downloadBlocks s o k bis) = peers s /\
  db (downloadBlocks s o k bis) = db s.
Proof.
  revert s k. induction bis as [|bi rest IH]; intros s k; simpl; [done|].
  pose proof (randPeerWrite_frame s (now o k) (range_peers o k)
                (Hash_String (BlockIdentifier.Hash bi))) as [Hp Hd].
  destruct (randPeerWrite _ _ _ _) as [s' r]. simpl in Hp, Hd.
  destruct (IH s' (S k)) as [Hp' Hd']. by rewrite Hp', Hd'.
Qed.

Lemma checkBlockCache_frame s o :
  peers (checkBlockCache s o) = peers s /\ db (checkBlockCache s o) = db s.
Proof.
  unfold checkBlockCache, blockPeerExpire. simpl.
  case_decide; [done|].
  destruct (BlocksMissing _ _); [|done|done].
  match goal with
  | |- context [downloadBlocks ?s1 ?o1 ?k1 ?bis1] =>
      destruct (downloadBlocks_frame s1 o1 k1 bis1) as [-> ->]
  end.
  done.
Qed.

Lemma handleInv_range_none invs bis :
  Forall (fun iv => InvVect.Type_ iv ≠ InvTypeBlock) invs ->
  handleInv_range invs bis = bis.
Proof.
  intros Hinv. revert bis. induction Hinv as [|iv invs Hiv _ IH]; intros bis; [done|].
  simpl. destruct (InvVect.Type_ iv); [apply IH|done|apply IH].
Qed.

(** X16. What [handleHeaders] leaves alone.  It never changes the peer
    map.  An empty message leaves the store as it is; a message with
    headers leaves the pending blocks as they are; and a message whose
    first header has no stored parent changes nothing at all. *)
Theorem handleHeaders_frame s o msg :
  peers (handleHeaders s o msg).1 = peers s /\
  (msg = [] -> db (handleHeaders s o msg).1 = db s) /\
  (msg ≠ [] -> blocks (handleHeaders s o msg).1 = blocks s) /\
  (forall first rest,
      msg = first :: rest ->
      BlockHeadersDB (db s) !! PrevBlock first = None ->
      handleHeaders s o msg = (s, NoPreviousBlockHeader)).
Proof.
  split; [|split; [|split]].
  - unfold handleHeaders. destruct msg as [|first rest].
    + apply checkBlockCache_frame.
    + destruct (BlockHeaderByHash _ _); [|done|done].
      destruct (Deserialize _); [|done].
      destruct (handleHeaders_range _ _ _ _); [|done|done].
      case_decide; [|done].
      by destruct (BlockHeadersInsert _ _ _) as [[l' hs'] [[]| |]].
  - intros ->. apply checkBlockCache_frame.
  - intros Hne. destruct (handleHeaders_blocks s o msg) as [Hb|Hb]; [done|].
    destruct msg; [done|]. unfold handleHeaders in *.
    destruct (BlockHeaderByHash _ _); [|done|done].
    destruct (Deserialize _); [|done].
    destruct (handleHeaders_range _ _ _ _); [|done|done].
    case_decide; [|done].
    by destruct (BlockHeadersInsert _ _ _) as [[l' hs'] [[]| |]].
  - intros first rest -> Hnone. unfold handleHeaders, BlockHeaderByHash.
    by rewrite Hnone.
Qed.

(** X17. A batch whose first header is already stored ends the race: when
    the headers of a message connect to the stored parent but the block
    hash of the first of them has a record, [handleHeaders] gets Duplicate
    from the store, takes the branch that closes the peer, and leaves the
    server as it was. *)
Theorem handleHeaders_duplicate s o first rest dbpbh pbh :
  let msg := first :: rest in
  BlockHeaderByHash (db s) (PrevBlock first) = Ok dbpbh ->
  Deserialize (BlockHeader.Header dbpbh) = Some pbh ->
  connects pbh msg ->
  Forall (fun m => is_Some (Serialize m)) msg ->
  is_Some (BlockHeadersDB (db s) !! BlockHash first) ->
  exists e,
    handleHeaders s o msg = (s, InsertFailed (DuplicateError e)).
Proof.
  intros msg Hparent Hde Hc Hs Hdup.
  unfold handleHeaders, msg. cbv iota beta. rewrite Hparent, Hde.
  rewrite handleHeaders_range_connected by done. rewrite app_nil_l.
  cbn [headers_of]. destruct (decide _) as [_|Hn]; [|simpl in Hn; lia].
  unfold BlockHeadersInsert. cbn [BlockHeader.Hash].
  destruct (decide (is_Some (BlockHeadersDB (db s) !! BlockHash first)))
    as [_|Hn]; [|by destruct Hn].
  eexists. by destruct s.
Qed.

(** X18. [handleInv] stays out of the store and of the peer map, and an
    inventory without block entries (transactions, other types) changes
    nothing. *)
Theorem handleInv_frame s o invs :
  peers (handleInv s o invs) = peers s /\
  db (handleInv s o invs) = db s /\
  (Forall (fun iv => InvVect.Type_ iv ≠ InvTypeBlock) invs ->
   handleInv s o invs = s).
Proof.
  unfold handleInv. split; [|split].
  - case_decide; [apply downloadBlocks_frame|done].
  - case_decide; [apply downloadBlocks_frame|done].
  - intros Hinv. rewrite handleInv_range_none by done.
    destruct (decide (0 < length [])%nat) as [Hlt|_]; [simpl in Hlt; lia|done].
Qed.

End handler_frames.

Section handler_samples.
#[local] Existing Instances Sample.json Sample.quiet_delete Sample.wire.

Lemma handleHeaders_duplicate_witness :
  exists e,
    handleHeaders (NewServer Sample.ldbw) Sample.oracle0 [Sample.wire_again]
    = (NewServer Sample.ldbw, InsertFailed (DuplicateError e)).
Proof.
  apply (handleHeaders_duplicate (NewServer Sample.ldbw) Sample.oracle0
           Sample.wire_again []
           (BlockHeader.with_CreatedAt (Sample.clock 0) Sample.genesis_wire)
           Sample.wire_genesis).
  - vm_compute. reflexivity.
  - vm_compute. reflexivity.
  - intros [|i] m p Hi Hp; simpl in Hi, Hp; simplify_eq; reflexivity.
  - repeat constructor. eexists. reflexivity.
  - vm_compute. eauto.
Defined.

End handler_samples.

Section handler_frame_samples.
#[local] Existing Instances Sample.json Sample.quiet_delete Sample.wire.

Lemma handleHeaders_frame_witness :
  handleHeaders (NewServer Sample.ldbw) Sample.oracle0 [Sample.wire3]
  = (NewServer Sample.ldbw, NoPreviousBlockHeader).
Proof.
  apply (proj2 (proj2 (proj2 (handleHeaders_frame (NewServer Sample.ldbw)
                                Sample.oracle0 [Sample.wire3])))
           Sample.wire3 []); [reflexivity|].
  vm_compute. reflexivity.
Defined.

Lemma handleInv_frame_witness :
  handleInv Sample.server_a Sample.oracle_a
    [InvVect.mk InvTypeTx (Sample.hash_of x01)]
  = Sample.server_a.
Proof.
  apply (proj2 (proj2 (handleInv_frame Sample.server_a Sample.oracle_a
                         [InvVect.mk InvTypeTx (Sample.hash_of x01)]))).
  repeat constructor. discriminate.
Defined.

End handler_frame_samples.

(** ** The genesis block *)

Section genesis_facts.
Context `{JSON} `{LevelDB} `{Wire}.

(** X19. Genesis bootstrap.  On a store without a best tip and without a
    record for the genesis hash, with the latch not yet set,
    [blockHeadersBest] inserts the genesis header and block and returns
    the genesis header at height 0.  Afterwards the best tip and the
    lookup by hash are the stored genesis record, the Blocks namespace
    holds the genesis block under its hash, there is no missing-block key
    for genesis, and a further [blockHeadersBest] returns the stored tip
    and changes nothing. *)
Theorem blockHeadersBest_bootstrap l g clock cp gbh j gb bj :
  let gh := BlockHeader.mk (GenesisHash cp) 0 gbh 0%Z in
  let stored := BlockHeader.with_CreatedAt (clock 0%nat) gh in
  BlockHeadersDB l !! bhsLastKey = None ->
  BlockHeadersDB l !! GenesisHash cp = None ->
  insertedGenesis g = false ->
  length (GenesisHash cp) = HashSize ->
  Serialize (GenesisBlock_Header cp) = Some gbh ->
  marshalBlockHeader stored = Some j ->
  unmarshalBlockHeader j = Some stored ->
  GenesisBlock_Bytes cp = Some gb ->
  marshalBlock (Block.mk (GenesisHash cp) gb) = Some bj ->
  exists l',
    blockHeadersBest l g clock cp = (l', mk_genesis true (Some gh), Ok [gh]) /\
    BlockHeadersBest l' = Ok [stored] /\
    BlockHeaderByHash l' (GenesisHash cp) = Ok stored /\
    BlocksDB l' !! GenesisHash cp = Some bj /\
    BlocksMissingDB l' !! (BigEndian.PutUint64 0 ++ x00 :: GenesisHash cp) = None /\
    (forall clock',
        blockHeadersBest l' (mk_genesis true (Some gh)) clock' cp
        = (l', mk_genesis true (Some gh), Ok [stored])).
Proof.
  intros gh stored Hlast Hnone Hflag Hlen Hser Hj Hun Hgb Hbj.
  assert (bhsLastKey ≠ GenesisHash cp) as Hne
    by (intros Heq; by rewrite <- Heq in Hlen).
  assert (BlockHeadersInsert l clock [gh]
          = (mk_ldb (<[bhsLastKey := j]> (<[GenesisHash cp := j]> (BlockHeadersDB l)))
               (BlocksMissingDB l) (BlocksDB l),
             [stored], Ok tt)) as Hins.
  { rewrite BlockHeadersInsert_Ok.
    - cbn [stamp]. fold stored. rewrite (header_puts_cons stored j) by done.
      rewrite missing_puts_cons. cbn [BlockHeader.Height gh].
      destruct (decide (0 ≠ 0)) as [Hz|_]; [done|]. done.
    - done.
    - constructor; [split; [done|reflexivity]|constructor].
    - cbn [stamp]. fold stored. constructor; [rewrite Hj; eauto|constructor]. }
  eexists. split.
  { unfold blockHeadersBest, BlockHeadersBest. rewrite Hlast.
    destruct (decide (length (@nil BlockHeader.t) = 0%nat)) as [_|Hn]; [|done].
    unfold insertGenesis. rewrite Hflag, Hser. fold gh. rewrite Hins, Hgb.
    unfold BlockInsert. cbn [BlockHeadersDB BlocksMissingDB BlocksDB Block.Hash].
    rewrite lookup_insert_ne, lookup_insert_eq by done.
    rewrite Hun. cbn [BlockHeader.Height BlockHeader.Hash stored gh
                       BlockHeader.with_CreatedAt].
    rewrite heightHashToKey_Ok by done. unfold tx_Delete. rewrite Hbj.
    cbn [genesisBlockHeader app]. reflexivity. }
  cbn [BlockHeadersDB BlocksMissingDB BlocksDB].
  assert (BlockHeadersBest
            (mk_ldb (<[bhsLastKey := j]> (<[GenesisHash cp := j]> (BlockHeadersDB l)))
               (delete (BigEndian.PutUint64 0 ++ x00 :: GenesisHash cp)
                  (BlocksMissingDB l))
               (<[GenesisHash cp := bj]> (BlocksDB l)))
          = Ok [stored]) as Hbest.
  { unfold BlockHeadersBest. cbn [BlockHeadersDB].
    by rewrite lookup_insert_eq, Hun. }
  split; [exact Hbest|].
  split.
  { unfold BlockHeaderByHash. cbn [BlockHeadersDB].
    by rewrite lookup_insert_ne, lookup_insert_eq, Hun by done. }
  split; [apply lookup_insert_eq|].
  split; [apply lookup_delete_eq|].
  intros clock'. unfold blockHeadersBest. rewrite Hbest.
  destruct (decide (length [stored] = 0%nat)) as [Hn|_]; [done|].
  destruct (decide (length [stored] ≠ 1%nat)) as [Hn|_]; [done|]. done.
Qed.

End genesis_facts.

Section genesis_samples.
#[local] Existing Instances Sample.json Sample.quiet_delete Sample.wire.

Lemma blockHeadersBest_bootstrap_witness :
  exists l',
    blockHeadersBest Sample.empty_ldb Sample.fresh Sample.clock Sample.params
    = (l', mk_genesis true (Some Sample.genesis_wire), Ok [Sample.genesis_wire]) /\
    BlockHeadersBest l'
    = Ok [BlockHeader.with_CreatedAt (Sample.clock 0) Sample.genesis_wire] /\
    BlocksDB l' !! Sample.hash_of x00
    = Some (Sample.hash_of x00 ++ [x01; x02; x03]).
Proof.
  destruct (blockHeadersBest_bootstrap Sample.empty_ldb Sample.fresh Sample.clock
              Sample.params (Sample.hash_of xff ++ Sample.hash_of x00)
              (default [] (Sample.marshal_header
                 (BlockHeader.with_CreatedAt (Sample.clock 0) Sample.genesis_wire)))
              [x01; x02; x03] (Sample.hash_of x00 ++ [x01; x02; x03]))
    as (l' & Hb & Hbest & _ & Hblock & _).
  - reflexivity.
  - reflexivity.
  - reflexivity.
  - reflexivity.
  - reflexivity.
  - vm_compute. reflexivity.
  - vm_compute. reflexivity.
  - reflexivity.
  - reflexivity.
  - exists l'. split; [exact Hb|]. split; [exact Hbest|exact Hblock].
Defined.

End genesis_samples.
